(** * search_engine.py: substring index over sharded character tries

    A shallow embedding of [src/search_engine.py].  Python's nested
    dictionaries are finite maps keyed by one-character strings; the value
    stored under a key is either another dictionary or a set of lines, and
    the code tells the two apart only by the key it used.  The embedding
    keeps that dynamic typing ([pyval]) together with the exceptions that
    Python raises when a set is used as a dictionary or the reverse. *)

From Stdlib Require Import Ascii String DecimalString.
From Stdlib Require DecimalNat.
From stdpp Require Import gmap strings list fin_maps sorting.

Set Warnings "-clear-no-such-hyp".

(** ** Values held in the trie *)

(** A dictionary maps single characters to values; a value is a nested
    dictionary ([{}] in the source) or a set of lines ([set()]). *)
#[warnings="-register-all"] Inductive pyval : Type :=
| PDict (m : gmap ascii pyval)
| PSet (s : gset string).

(** The exceptions that the modelled code can raise. *)
Inductive exn : Type :=
| AttributeError
| TypeError
| IOError.

(** [FINISH_MARKER = "_"]: marker to mark end of strings in trie. *)
Definition FINISH_MARKER : ascii := "_"%char.

(** ** Substring expander *)

(** [strng[start : stop]] for [start <= stop]. *)
Definition slice (strng : string) (start stop : nat) : string :=
  String.substring start (stop - start) strng.

(** [generate_substrings]: the two nested [range] loops, appending
    [strng[start : end+1]] in iteration order. *)
Definition generate_substrings (strng : string) : list string :=
  flat_map
    (fun start =>
       map (fun stop => slice strng start (stop + 1))
           (seq start (String.length strng - start)))
    (seq 0 (String.length strng)).

(** ** Trie insertion *)

(** The body of the [for word in words] loop of [make_trie] for one word:
    walk the characters with [setdefault(char, {})], then
    [setdefault(FINISH_MARKER, set())] and [add(parent_string)].
    The dictionary is mutated in place, so the dictionary as it stands is
    returned together with the exception, if one was raised:
    - [setdefault] on a value that is a set raises [AttributeError];
    - [add] on a value that is a dictionary raises [AttributeError]. *)
Fixpoint insert_word (word parent_string : string) (current : gmap ascii pyval)
  : gmap ascii pyval * option exn :=
  match word with
  | EmptyString =>
      match current !! FINISH_MARKER with
      | None => (<[FINISH_MARKER := PSet {[parent_string]}]> current, None)
      | Some (PSet s) =>
          (<[FINISH_MARKER := PSet (s ∪ {[parent_string]})]> current, None)
      | Some (PDict _) => (current, Some AttributeError)
      end
  | String char rest =>
      match current !! char with
      | None =>
          let '(child, e) := insert_word rest parent_string ∅ in
          (<[char := PDict child]> current, e)
      | Some (PDict child) =>
          let '(child', e) := insert_word rest parent_string child in
          (<[char := PDict child']> current, e)
      | Some (PSet _) => (current, Some AttributeError)
      end
  end.

(** [make_trie(words, parent_string, file_db)]. *)
Fixpoint make_trie (words : list string) (parent_string : string)
    (file_db : gmap ascii pyval) : gmap ascii pyval * option exn :=
  match words with
  | [] => (file_db, None)
  | word :: words' =>
      match insert_word word parent_string file_db with
      | (file_db', None) => make_trie words' parent_string file_db'
      | (file_db', Some e) => (file_db', Some e)
      end
  end.

(** ** Trie lookup *)

(** What [search_trie] hands back: the value found under the marker, the
    empty list [[]], or an exception. *)
Inductive found : Type :=
| Hit (v : pyval)
| Miss
| Raised (e : exn).

(** A one-character Python string. *)
Definition chr (c : ascii) : string := String c EmptyString.

(** [search_trie(word, current)].  When [current] is a set, [letter in
    current] is set membership of the one-character string, and
    [current[letter]] raises [TypeError]. *)
Fixpoint search_trie (word : string) (current : pyval) : found :=
  match word with
  | String letter rest =>
      match current with
      | PDict m =>
          match m !! letter with
          | Some v => search_trie rest v
          | None => Miss
          end
      | PSet s => if decide (chr letter ∈ s) then Raised TypeError else Miss
      end
  | EmptyString =>
      match current with
      | PDict m =>
          match m !! FINISH_MARKER with
          | Some v => Hit v
          | None => Miss
          end
      | PSet s =>
          if decide (chr FINISH_MARKER ∈ s) then Raised TypeError else Miss
      end
  end.

(** [result_set.update(x)] adds the elements that iterating [x] yields:
    the members of a set, the keys of a dictionary, nothing for [[]]. *)
Definition iterate (v : pyval) : gset string :=
  match v with
  | PSet s => s
  | PDict m => set_map chr (dom m)
  end.

(** ** Lines and tokens *)

(** The characters that [str.strip()] removes: space, tab, newline,
    vertical tab, form feed, carriage return. *)
Definition is_whitespace (c : ascii) : bool :=
  match c with
  | " " | "009" | "010" | "011" | "012" | "013" => true
  | _ => false
  end%char.

Fixpoint lstrip (s : string) : string :=
  match s with
  | EmptyString => EmptyString
  | String c s' => if is_whitespace c then lstrip s' else s
  end.

Fixpoint rstrip (s : string) : string :=
  match s with
  | EmptyString => EmptyString
  | String c s' =>
      match rstrip s' with
      | EmptyString => if is_whitespace c then EmptyString else chr c
      | r => String c r
      end
  end.

(** [line.strip()]. *)
Definition strip (line : string) : string := rstrip (lstrip line).

(** [line.split(' ')]: cut at every single space; two spaces in a row give
    an empty string between them. *)
Fixpoint split_space (line : string) : list string :=
  match line with
  | EmptyString => [EmptyString]
  | String c line' =>
      if decide (c = " "%char) then EmptyString :: split_space line'
      else match split_space line' with
           | strng :: strings => String c strng :: strings
           | [] => [chr c]
           end
  end.

(** [str(count)] for a non-negative integer. *)
Definition str (count : nat) : string :=
  NilZero.string_of_uint (Nat.to_uint count).

(** ** The datastore *)

(** The state that the methods of [ParseStore] read and change.
    - [input_file]: the lines that iterating [open(self.file, 'r')] yields,
      [None] when the file cannot be opened ([open] raises [IOError]);
    - [directory]: the shelve files of [self.datastore_directory], by file
      name, each holding the dictionary stored in it;
    - [handles]: the shelve handles that are open, by file name;
    - [datastores]: [self.datastores]. *)
Record state : Type := State {
  input_file : option (list string);
  directory : gmap string (gmap ascii pyval);
  handles : list string;
  datastores : list string
}.

(** [shelve.open(dsfile)]: the default flag creates the file when it is
    missing; the handle stays open until [close]. *)
Definition shelve_open (dsfile : string) (σ : state) : state :=
  State (input_file σ)
        (match directory σ !! dsfile with
         | Some _ => directory σ
         | None => <[dsfile := ∅]> (directory σ)
         end)
        (handles σ ++ [dsfile])
        (datastores σ).

(** What an open shelf reads as. *)
Definition shelf (dsfile : string) (σ : state) : gmap ascii pyval :=
  default ∅ (directory σ !! dsfile).

(** [for k in temp_dict.keys(): file_db[k] = temp_dict[k]]: every key of
    [temp_dict] is stored; keys already in the file and not in [temp_dict]
    stay. *)
Definition shelve_store (dsfile : string) (temp_dict : gmap ascii pyval)
    (σ : state) : state :=
  State (input_file σ)
        (<[dsfile := temp_dict ∪ shelf dsfile σ]> (directory σ))
        (handles σ)
        (datastores σ).

(** Remove the first occurrence of a handle. *)
Fixpoint release (dsfile : string) (hs : list string) : list string :=
  match hs with
  | [] => []
  | h :: hs' => if decide (h = dsfile) then hs' else h :: release dsfile hs'
  end.

(** [file_db.close()]. *)
Definition shelve_close (dsfile : string) (σ : state) : state :=
  State (input_file σ) (directory σ) (release dsfile (handles σ))
        (datastores σ).

Definition append_datastore (dsfile : string) (σ : state) : state :=
  State (input_file σ) (directory σ) (handles σ) (datastores σ ++ [dsfile]).

(** The name of the shelve file written when the counter stands at
    [count], inside the datastore directory. *)
Definition dsfile_of (count : nat) : string := str count +:+ ".db".

(** The flush that [parse_and_insert] performs in the loop and once more
    after it: open the shelf, store [temp_dict], close, record the file. *)
Definition flush (count : nat) (temp_dict : gmap ascii pyval) (σ : state)
  : state :=
  let dsfile := dsfile_of count in
  append_datastore dsfile
    (shelve_close dsfile (shelve_store dsfile temp_dict (shelve_open dsfile σ))).

(** The local variables [count] and [temp_dict] of [parse_and_insert]. *)
Record locals : Type := Locals {
  count : nat;
  temp_dict : gmap ascii pyval
}.

(** [for strng in strings]: insert the substrings of each string under
    [line] and advance [count] by one per string. *)
Fixpoint insert_strings (strings : list string) (line : string) (b : locals)
  : locals * option exn :=
  match strings with
  | [] => (b, None)
  | strng :: strings' =>
      match make_trie (generate_substrings strng) line (temp_dict b) with
      | (d, None) => insert_strings strings' line (Locals (S (count b)) d)
      | (d, Some e) => (Locals (count b) d, Some e)
      end
  end.

(** The test [count and (count % 100) == 0]. *)
Definition flush_due (count : nat) : bool :=
  negb (count =? 0) && (count mod 100 =? 0).

(** One iteration of [for line in fp]. *)
Definition parse_line (raw : string) (b : locals) (σ : state)
  : locals * state * option exn :=
  let line := strip raw in
  if decide (line = EmptyString) then (b, σ, None)
  else
    let '(b1, σ1) :=
      if flush_due (count b)
      then (Locals (count b) ∅, flush (count b) (temp_dict b) σ)
      else (b, σ) in
    let '(b2, e) := insert_strings (split_space line) line b1 in
    (b2, σ1, e).

Fixpoint parse_lines (fp : list string) (b : locals) (σ : state)
  : locals * state * option exn :=
  match fp with
  | [] => (b, σ, None)
  | raw :: fp' =>
      match parse_line raw b σ with
      | (b', σ', None) => parse_lines fp' b' σ'
      | (b', σ', Some e) => (b', σ', Some e)
      end
  end.

(** [parse_and_insert]: the loop over the input lines, then the flush that
    follows the loop. *)
Definition parse_and_insert (σ : state) : state * option exn :=
  match input_file σ with
  | None => (σ, Some IOError)
  | Some fp =>
      match parse_lines fp (Locals 0 ∅) σ with
      | (b, σ', None) => (flush (count b) (temp_dict b) σ', None)
      | (_, σ', Some e) => (σ', Some e)
      end
  end.

(** [os.listdir(self.datastore_directory)]. *)
Definition listdir (σ : state) : list string := elements (dom (directory σ)).

(** [initialize_datastore]: [os.makedirs] leaves an empty directory when
    there was none; every entry of the directory is appended to
    [self.datastores]. *)
Definition initialize_datastore (σ : state) : state :=
  State (input_file σ) (directory σ) (handles σ) (datastores σ ++ listdir σ).

(** [for i in self.datastores: if os.path.exists(i): os.unlink(i)], then
    [self.datastores = []]. *)
Definition unlink_datastores (σ : state) : state :=
  State (input_file σ)
        (foldl (fun dir i => delete i dir) (directory σ) (datastores σ))
        (handles σ)
        [].

(** [manage_datastore(force_rebuild)]. *)
Definition manage_datastore (force_rebuild : bool) (σ : state)
  : state * option exn :=
  let σ1 := initialize_datastore σ in
  let σ2 := if force_rebuild then unlink_datastores σ1 else σ1 in
  match datastores σ2 with
  | [] => parse_and_insert σ2
  | _ :: _ => (σ2, None)
  end.

(** What [result_set.update(search_trie(...))] adds to [result_set]. *)
Definition update (result_set : gset string) (f : found)
  : gset string + exn :=
  match f with
  | Hit v => inl (result_set ∪ iterate v)
  | Miss => inl result_set
  | Raised e => inr e
  end.

(** The last reference to a shelf goes away: CPython counts references,
    so [Shelf.__del__] runs at that point and calls [close()].  The
    argument is the shelf that the local variable [file_db] of [search] is
    bound to, [None] while it is unbound. *)
Definition drop_shelf (file_db : option string) (σ : state) : state :=
  match file_db with
  | Some dsfile => shelve_close dsfile σ
  | None => σ
  end.

(** The loop of [search] over [self.datastores].  The source calls
    [close()] nowhere in [search]; the shelves are released when they are
    no longer referenced:
    - [file_db = shelve.open(i)] opens the shelf of this iteration and then
      rebinds [file_db], the only reference to the shelf of the iteration
      before, which is dropped;
    - when the loop is over and [search] returns, its local variables go,
      and the shelf of the last iteration with them;
    - when [search_trie] raises, the exception leaves [search] with
      [file_db] still bound, and the shelf being searched stays open. *)
Fixpoint search_loop (search_str : string) (ds : list string)
    (result_set : gset string) (file_db : option string) (σ : state)
  : state * (gset string + exn) :=
  match ds with
  | [] => (drop_shelf file_db σ, inl result_set)
  | i :: ds' =>
      let σ1 := drop_shelf file_db (shelve_open i σ) in
      match update result_set (search_trie search_str (PDict (shelf i σ1))) with
      | inl result_set' => search_loop search_str ds' result_set' (Some i) σ1
      | inr e => (σ1, inr e)
      end
  end.

(** [search(search_str)]: the set of lines that is logged, or the
    exception that escapes.  [file_db] is unbound when the loop starts. *)
Definition search (search_str : string) (σ : state)
  : state * (gset string + exn) :=
  search_loop search_str (datastores σ) ∅ None σ.

(** A [ParseStore] fresh from [__init__], over a given input file and
    datastore directory. *)
Definition ParseStore_init (fp : option (list string))
    (dir : gmap string (gmap ascii pyval)) : state :=
  State fp dir [] [].

(** ** A single trie over the whole file *)

(** The trie obtained when every string of every non-blank line goes into
    one dictionary that is never flushed: the loop of [parse_and_insert]
    without the flush branch. *)
Fixpoint single_trie_strings (strings : list string) (line : string)
    (d : gmap ascii pyval) : gmap ascii pyval * option exn :=
  match strings with
  | [] => (d, None)
  | strng :: strings' =>
      match make_trie (generate_substrings strng) line d with
      | (d', None) => single_trie_strings strings' line d'
      | (d', Some e) => (d', Some e)
      end
  end.

Fixpoint single_trie_lines (fp : list string) (d : gmap ascii pyval)
  : gmap ascii pyval * option exn :=
  match fp with
  | [] => (d, None)
  | raw :: fp' =>
      let line := strip raw in
      if decide (line = EmptyString) then single_trie_lines fp' d
      else match single_trie_strings (split_space line) line d with
           | (d', None) => single_trie_lines fp' d'
           | (d', Some e) => (d', Some e)
           end
  end.

Definition single_trie (fp : list string) : gmap ascii pyval * option exn :=
  single_trie_lines fp ∅.

(** A state whose only datastore is a shelf that holds the given trie. *)
Definition single_store (T : gmap ascii pyval) : state :=
  State None {["single.db" := T]} [] ["single.db"].

(** The line terminator that the lines read from a file end with. *)
Definition newline : string := String "010"%char EmptyString.

(** ** Vocabulary of the proofs *)

(** The number of strings in the non-blank lines of a file. *)
Fixpoint strings_in (fp : list string) : nat :=
  match fp with
  | [] => 0
  | raw :: fp' =>
      (if decide (strip raw = EmptyString) then 0
       else length (split_space (strip raw)))
      + strings_in fp'
  end.

(** What searching from a value adds to an empty [result_set]. *)
Definition answer_val (search_str : string) (v : pyval) : gset string + exn :=
  match search_trie search_str v with
  | Hit x => inl (iterate x)
  | Miss => inl ∅
  | Raised e => inr e
  end.

(** What one trie adds to an empty [result_set]. *)
Definition answer (search_str : string) (d : gmap ascii pyval)
  : gset string + exn :=
  answer_val search_str (PDict d).

(** The string whose membership [search_trie] tests when it stands on a
    set: the next letter, or the marker at the end of the word. *)
Definition probe (search_str : string) : string :=
  match search_str with
  | EmptyString => chr FINISH_MARKER
  | String letter _ => chr letter
  end.

(** Two answers in sequence: the sets are united, the first exception
    wins. *)
Definition join (a b : gset string + exn) : gset string + exn :=
  match a, b with
  | inl x, inl y => inl (x ∪ y)
  | inr e, _ => inr e
  | inl _, inr e => inr e
  end.

(** The answers of a list of tries, one after the other. *)
Fixpoint answers (search_str : string) (tries : list (gmap ascii pyval))
    (acc : gset string + exn) : gset string + exn :=
  match tries with
  | [] => acc
  | d :: tries' => answers search_str tries' (join acc (answer search_str d))
  end.

(** The shelves listed in [self.datastores], in order. *)
Definition shelves (σ : state) : list (gmap ascii pyval) :=
  map (fun i => shelf i σ) (datastores σ).

(** Following a path of keys through nested dictionaries. *)
Fixpoint walk (path : string) (v : pyval) : option pyval :=
  match path with
  | EmptyString => Some v
  | String c path' =>
      match v with
      | PDict m =>
          match m !! c with
          | Some v' => walk path' v'
          | None => None
          end
      | PSet _ => None
      end
  end.

(** A value that was kept: a dictionary is still a dictionary, a set of
    lines has lost no line. *)
Definition grows (v v' : pyval) : Prop :=
  match v, v' with
  | PDict _, PDict _ => True
  | PSet s, PSet s' => s ⊆ s'
  | _, _ => False
  end.

(** A string without the marker character. *)
Fixpoint pure (word : string) : bool :=
  match word with
  | EmptyString => true
  | String c word' =>
      if decide (c = FINISH_MARKER) then false else pure word'
  end.

(** A non-empty word with the marker character at most in first place. *)
Definition clean (word : string) : bool :=
  match word with
  | EmptyString => false
  | String _ word' => pure word'
  end.

(** A token with the marker character at most in first place. *)
Definition clean_token (strng : string) : bool :=
  match strng with
  | EmptyString => true
  | String _ strng' => pure strng'
  end.

(** Whether a string starts with the marker character. *)
Definition starts_with_marker (strng : string) : bool :=
  match strng with
  | EmptyString => false
  | String c _ => if decide (c = FINISH_MARKER) then true else false
  end.

(** The shape of a dictionary below the first level: the marker holds a
    set of lines, every other key holds a dictionary of the same shape. *)
#[warnings="-register-all"] Inductive wf_node : gmap ascii pyval -> Prop :=
| wf_node_intro (m : gmap ascii pyval) :
    (forall c v, m !! c = Some v ->
       (c = FINISH_MARKER /\ exists s, v = PSet s) \/
       (c <> FINISH_MARKER /\ exists m', v = PDict m' /\ wf_node m')) ->
    wf_node m.

(** The shape of a first-level dictionary: every key holds a dictionary. *)
Definition wf_root (m : gmap ascii pyval) : Prop :=
  forall c v, m !! c = Some v -> exists m', v = PDict m' /\ wf_node m'.

(** Every shelve file and every listed datastore was named from a counter
    value below [n]. *)
Definition named_below (n : nat) (σ : state) : Prop :=
  (forall f, f ∈ datastores σ -> exists c, f = dsfile_of c /\ c < n) /\
  (forall f, is_Some (directory σ !! f) -> exists c, f = dsfile_of c /\ c < n).

(** The word is found with [line] among the lines under its marker. *)
Definition stored (word line : string) (d : gmap ascii pyval) : Prop :=
  exists s, search_trie word (PDict d) = Hit (PSet s) /\ line ∈ s.

(** ** Vocabulary of the further properties *)

(** The value of [count] at the start of each non-blank line, when it
    stands at [c] before the first line. *)
Fixpoint line_starts (fp : list string) (c : nat) : list nat :=
  match fp with
  | [] => []
  | raw :: fp' =>
      if decide (strip raw = EmptyString) then line_starts fp' c
      else c :: line_starts fp' (c + length (split_space (strip raw)))
  end.

(** Every string of the line has the marker character at most in first
    place.  A blank line splits into one empty string, which is clean. *)
Definition clean_line (raw : string) : bool :=
  forallb clean_token (split_space (strip raw)).

Definition clean_file (fp : list string) : bool := forallb clean_line fp.

(** Whether a character occurs in a string. *)
Fixpoint mentions (c : ascii) (s : string) : bool :=
  match s with
  | EmptyString => false
  | String c' s' => if decide (c' = c) then true else mentions c s'
  end.

(** The query occurs as a non-empty run in a string of the stripped line
    [l], and [l] is a non-blank line of the file. *)
Definition occurs (q : string) (fp : list string) (l : string) : Prop :=
  exists raw t pre post,
    raw ∈ fp /\ strip raw = l /\ l <> EmptyString /\
    t ∈ split_space l /\ t = pre +:+ q +:+ post.

(** * Strings *)

Section strings.

Lemma append_nil_l (s : string) : EmptyString +:+ s = s.
Proof. reflexivity. Qed.

Lemma append_cons (c : ascii) (s t : string) :
  String c s +:+ t = String c (s +:+ t).
Proof. reflexivity. Qed.

Lemma append_nil_r (s : string) : s +:+ EmptyString = s.
Proof. induction s as [|c s IH]; [done|]. by rewrite append_cons, IH. Qed.

Lemma append_assoc (s t u : string) : (s +:+ t) +:+ u = s +:+ (t +:+ u).
Proof.
  induction s as [|c s IH]; [done|]. by rewrite !append_cons, IH.
Qed.

Lemma length_append (s t : string) :
  String.length (s +:+ t) = String.length s + String.length t.
Proof.
  induction s as [|c s IH]; [done|]. rewrite append_cons. simpl. by rewrite IH.
Qed.

(** A prefix read off with [substring 0]. *)
Lemma substring_prefix (s post : string) :
  String.substring 0 (String.length s) (s +:+ post) = s.
Proof.
  induction s as [|c s IH]; simpl.
  - by destruct post.
  - by rewrite IH.
Qed.

Lemma substring_middle (pre s post : string) :
  String.substring (String.length pre) (String.length s) (pre +:+ s +:+ post) = s.
Proof.
  induction pre as [|c pre IH]; simpl.
  - rewrite append_nil_l. apply substring_prefix.
  - apply IH.
Qed.

(** Every [substring] inside the bounds splits the string around it. *)
Lemma substring_split (n m : nat) (t : string) :
  n + m <= String.length t ->
  exists pre post,
    t = pre +:+ String.substring n m t +:+ post /\
    String.length (String.substring n m t) = m.
Proof.
  revert m t. induction n as [|n IHn]; intros m t Hlen.
  - exists EmptyString.
    revert t Hlen. induction m as [|m IHm]; intros t Hlen.
    + exists t. by destruct t.
    + destruct t as [|c t]; simpl in Hlen; [lia|].
      destruct (IHm t) as (post & Ht & Hl); [lia|].
      exists post. rewrite append_nil_l in Ht. simpl.
      rewrite append_nil_l, append_cons. split; [by f_equal|by f_equal].
  - destruct t as [|c t]; simpl in Hlen; [lia|].
    destruct (IHn m t) as (pre & post & Ht & Hl); [lia|].
    exists (String c pre), post. simpl. rewrite append_cons.
    split; [by f_equal|done].
Qed.

(** The substring expander yields exactly the non-empty contiguous runs. *)
Lemma elem_of_generate_substrings (s t : string) :
  s ∈ generate_substrings t <->
  s <> EmptyString /\ exists pre post, t = pre +:+ s +:+ post.
Proof.
  unfold generate_substrings, slice.
  rewrite list_elem_of_In, in_flat_map. split.
  - intros (start & Hstart & Hs).
    apply in_map_iff in Hs as (stop & <- & Hstop).
    apply in_seq in Hstart. apply in_seq in Hstop.
    destruct (substring_split start (stop + 1 - start) t)
      as (pre & post & Ht & Hl); [lia|].
    split; [|by eauto].
    intros Hnil. rewrite Hnil in Hl. simpl in Hl. lia.
  - intros (Hne & pre & post & ->).
    exists (String.length pre). split.
    + apply in_seq. rewrite !length_append.
      destruct s; [done|]. simpl. lia.
    + apply in_map_iff. exists (String.length pre + String.length s - 1).
      split.
      * replace (String.length pre + String.length s - 1 + 1 - String.length pre)
          with (String.length s) by (destruct s; [done|]; simpl; lia).
        apply substring_middle.
      * apply in_seq. rewrite !length_append.
        destruct s; [done|]. simpl. lia.
Qed.

Lemma split_space_cons (line : string) :
  exists strng strings, split_space line = strng :: strings.
Proof.
  destruct line as [|c line]; simpl; [by eauto|].
  case_decide; [by eauto|]. destruct (split_space line); by eauto.
Qed.

End strings.

(** * Insertion keeps what the trie holds *)

Section trie.

Implicit Types (d : gmap ascii pyval) (v : pyval).
Implicit Types (w l q p : string).

Lemma grows_refl v : grows v v.
Proof. destruct v; simpl; [done|set_solver]. Qed.

Lemma grows_trans v1 v2 v3 : grows v1 v2 -> grows v2 v3 -> grows v1 v3.
Proof. destruct v1, v2, v3; simpl; try done. set_solver. Qed.

Lemma walk_app p q v : walk (p +:+ q) v = walk p v ≫= walk q.
Proof.
  revert v. induction p as [|c p IH]; intros v; [done|].
  rewrite append_cons. simpl. destruct v as [m|s]; [|done].
  destruct (m !! c); [apply IH|done].
Qed.

(** [search_trie] finds what lies at the end of the path spelled by the
    word followed by the marker. *)
Lemma search_trie_walk q v x :
  search_trie q v = Hit x <-> walk (q +:+ chr FINISH_MARKER) v = Some x.
Proof.
  revert v. induction q as [|c q IH]; intros v.
  - rewrite append_nil_l. simpl. destruct v as [m|s].
    + destruct (m !! FINISH_MARKER); split; intros; by simplify_eq.
    + case_decide; split; intros; by simplify_eq.
  - rewrite append_cons. simpl. destruct v as [m|s].
    + destruct (m !! c); [apply IH|split; intros; by simplify_eq].
    + case_decide; split; intros; by simplify_eq.
Qed.

(** Inserting a word keeps every path and every line. *)
Lemma insert_word_walk w l d p v :
  walk p (PDict d) = Some v ->
  exists v', walk p (PDict (insert_word w l d).1) = Some v' /\ grows v v'.
Proof.
  revert d p v. induction w as [|c w IH]; intros d p v Hp.
  - destruct p as [|a p].
    { simpl in Hp. injection Hp as <-. simpl. eexists. split; [done|].
      by destruct (insert_word "" l d).1. }
    simpl in *. destruct (d !! a) as [v0|] eqn:Ha; [|done].
    destruct (d !! FINISH_MARKER) as [[m|s]|] eqn:Hm; simpl.
    + rewrite Ha. eauto using grows_refl.
    + destruct (decide (a = FINISH_MARKER)) as [->|Hne].
      * rewrite lookup_insert_eq. rewrite Hm in Ha. injection Ha as <-.
        destruct p; [|done]. injection Hp as <-.
        eexists. split; [done|]. simpl. set_solver.
      * rewrite lookup_insert_ne by done. rewrite Ha. eauto using grows_refl.
    + destruct (decide (a = FINISH_MARKER)) as [->|Hne]; [congruence|].
      rewrite lookup_insert_ne by done. rewrite Ha. eauto using grows_refl.
  - destruct p as [|a p].
    { simpl in Hp. injection Hp as <-. simpl. eexists. split; [done|].
      by destruct (insert_word (String c w) l d).1. }
    simpl in Hp. destruct (d !! a) as [v0|] eqn:Ha; [|done].
    simpl. destruct (d !! c) as [[m|s]|] eqn:Hc.
    + destruct (insert_word w l m) as [m' e] eqn:Hins. simpl.
      destruct (decide (a = c)) as [->|Hne].
      * rewrite lookup_insert_eq. rewrite Hc in Ha. injection Ha as <-.
        destruct (IH m p v Hp) as (v' & Hv' & Hg). rewrite Hins in Hv'.
        eauto.
      * rewrite lookup_insert_ne by done. rewrite Ha. eauto using grows_refl.
    + simpl. rewrite Ha. eauto using grows_refl.
    + destruct (insert_word w l ∅) as [m' e] eqn:Hins. simpl.
      destruct (decide (a = c)) as [->|Hne]; [congruence|].
      rewrite lookup_insert_ne by done. rewrite Ha. eauto using grows_refl.
Qed.

Lemma make_trie_walk words l d p v :
  walk p (PDict d) = Some v ->
  exists v', walk p (PDict (make_trie words l d).1) = Some v' /\ grows v v'.
Proof.
  revert d v. induction words as [|w words IH]; intros d v Hp; simpl.
  - eauto using grows_refl.
  - destruct (insert_word_walk w l d p v Hp) as (v1 & Hv1 & Hg1).
    destruct (insert_word w l d) as [d1 [e|]]; simpl in *; [by eauto|].
    destruct (IH d1 v1 Hv1) as (v2 & Hv2 & Hg2).
    eauto using grows_trans.
Qed.

(** A line that is stored stays stored. *)
Lemma stored_walk q l d d' :
  (forall v, walk (q +:+ chr FINISH_MARKER) (PDict d) = Some v ->
     exists v', walk (q +:+ chr FINISH_MARKER) (PDict d') = Some v' /\
                grows v v') ->
  stored q l d -> stored q l d'.
Proof.
  intros Hmono (s & Hs & Hl). apply search_trie_walk in Hs.
  destruct (Hmono _ Hs) as ([m|s'] & Hv' & Hg); simpl in Hg; [done|].
  exists s'. split; [by apply search_trie_walk|set_solver].
Qed.

Lemma insert_word_keeps w l q l' d :
  stored q l' d -> stored q l' (insert_word w l d).1.
Proof. apply stored_walk. intros v. apply insert_word_walk. Qed.

Lemma make_trie_keeps words l q l' d :
  stored q l' d -> stored q l' (make_trie words l d).1.
Proof. apply stored_walk. intros v. apply make_trie_walk. Qed.

(** A word inserted without an exception is stored. *)
Lemma insert_word_stored w l d :
  (insert_word w l d).2 = None -> stored w l (insert_word w l d).1.
Proof.
  revert d. induction w as [|c w IH]; intros d; simpl.
  - destruct (d !! FINISH_MARKER) as [[m|s]|]; simpl; [done| |]; intros _.
    + exists (s ∪ {[l]}). simpl. rewrite lookup_insert_eq.
      split; [done|set_solver].
    + exists {[l]}. simpl. rewrite lookup_insert_eq. split; [done|set_solver].
  - destruct (d !! c) as [[m|s]|]; simpl; [|done|].
    + specialize (IH m). destruct (insert_word w l m) as [m' e]. simpl in *.
      intros He. destruct (IH He) as (s & Hs & Hl).
      exists s. simpl. by rewrite lookup_insert_eq.
    + specialize (IH ∅). destruct (insert_word w l ∅) as [m' e]. simpl in *.
      intros He. destruct (IH He) as (s & Hs & Hl).
      exists s. simpl. by rewrite lookup_insert_eq.
Qed.

(** After [make_trie] returns, every word of the list is stored. *)
Lemma make_trie_stored words l d w :
  (make_trie words l d).2 = None -> w ∈ words ->
  stored w l (make_trie words l d).1.
Proof.
  revert d. induction words as [|w0 words IH]; intros d He Hw.
  - by apply elem_of_nil in Hw.
  - simpl in *. pose proof (insert_word_stored w0 l d) as Hst.
    destruct (insert_word w0 l d) as [d1 [e|]]; simpl in *; [done|].
    apply elem_of_cons in Hw as [->|Hw]; [|by apply IH].
    apply make_trie_keeps. by apply Hst.
Qed.

(** A stored word cannot be extended by the marker character: the marker
    key of its node holds a set. *)
Lemma stored_marker_clash q l l' d :
  stored q l d -> stored (q +:+ chr FINISH_MARKER) l' d -> False.
Proof.
  intros (s & Hs & _) (s' & Hs' & _).
  apply search_trie_walk in Hs. apply search_trie_walk in Hs'.
  rewrite walk_app, Hs in Hs'. done.
Qed.

Lemma pure_false_split t :
  pure t = false -> exists a b, t = a +:+ chr FINISH_MARKER +:+ b.
Proof.
  induction t as [|c t IH]; simpl; [done|].
  case_decide as Hc; intros Hp.
  - subst c. by exists EmptyString, t.
  - destruct (IH Hp) as (a & b & ->). by exists (String c a), b.
Qed.

(** A token whose substrings were all inserted without an exception has
    the marker character at most in first place. *)
Lemma make_trie_clean_token t l d :
  (make_trie (generate_substrings t) l d).2 = None -> clean_token t = true.
Proof.
  intros He. destruct t as [|c t]; [done|]. simpl.
  destruct (pure t) eqn:Hp; [done|]. exfalso.
  apply pure_false_split in Hp as (a & b & ->).
  apply (stored_marker_clash (String c a) l l
           (make_trie (generate_substrings
              (String c (a +:+ chr FINISH_MARKER +:+ b))) l d).1).
  - apply make_trie_stored; [done|]. apply elem_of_generate_substrings.
    split; [done|]. exists EmptyString, (chr FINISH_MARKER +:+ b).
    by rewrite append_nil_l, append_cons.
  - apply make_trie_stored; [done|]. apply elem_of_generate_substrings.
    split; [done|]. exists EmptyString, b.
    by rewrite append_nil_l, !append_cons, append_assoc.
Qed.

End trie.

(** * Tries built from clean words *)

Section shape.

Implicit Types (d m : gmap ascii pyval) (v : pyval).
Implicit Types (w l q : string) (a b : gset string + exn).

Lemma join_assoc a b c : join (join a b) c = join a (join b c).
Proof.
  destruct a, b, c; simpl; try done. by rewrite (assoc_L (∪)).
Qed.

Lemma join_empty_l a : join (inl ∅) a = a.
Proof. destruct a; simpl; [|done]. by rewrite (left_id_L ∅ (∪)). Qed.

Lemma join_empty_r a : join a (inl ∅) = a.
Proof. destruct a; simpl; [|done]. by rewrite (right_id_L ∅ (∪)). Qed.

Lemma answer_val_set q s :
  answer_val q (PSet s) =
  if decide (probe q ∈ s) then inr TypeError else inl ∅.
Proof. unfold answer_val. destruct q; simpl; by case_decide. Qed.

Lemma answer_nil d :
  answer EmptyString d =
  match d !! FINISH_MARKER with
  | Some v => inl (iterate v)
  | None => inl ∅
  end.
Proof.
  unfold answer, answer_val. simpl. by destruct (d !! FINISH_MARKER).
Qed.

Lemma answer_cons c q d :
  answer (String c q) d =
  match d !! c with
  | Some v => answer_val q v
  | None => inl ∅
  end.
Proof. unfold answer, answer_val. simpl. by destruct (d !! c). Qed.

Lemma answer_empty q : answer q ∅ = inl ∅.
Proof.
  destruct q; [rewrite answer_nil|rewrite answer_cons];
    by rewrite lookup_empty.
Qed.

Lemma wf_node_empty : wf_node ∅.
Proof. constructor. intros c v Hc. by rewrite lookup_empty in Hc. Qed.

Lemma wf_root_empty : wf_root ∅.
Proof. intros c v Hc. by rewrite lookup_empty in Hc. Qed.

Lemma wf_node_marker d v :
  wf_node d -> d !! FINISH_MARKER = Some v -> exists s, v = PSet s.
Proof.
  intros [m Hm] Hv. destruct (Hm _ _ Hv) as [[_ ?]|[? _]]; done.
Qed.

Lemma wf_node_child d c v :
  wf_node d -> c <> FINISH_MARKER -> d !! c = Some v ->
  exists m, v = PDict m /\ wf_node m.
Proof.
  intros [m Hm] Hc Hv. destruct (Hm _ _ Hv) as [[? _]|[_ ?]]; done.
Qed.

Lemma wf_node_insert_marker d s :
  wf_node d -> wf_node (<[FINISH_MARKER := PSet s]> d).
Proof.
  intros Hd. constructor. intros c v.
  destruct (decide (c = FINISH_MARKER)) as [->|Hc].
  - rewrite lookup_insert_eq. intros [= <-]. left. eauto.
  - rewrite lookup_insert_ne by done. intros Hv.
    destruct (wf_node_child d c v Hd Hc Hv) as (m & -> & Hm). right. eauto.
Qed.

Lemma wf_node_insert_child d c m :
  c <> FINISH_MARKER -> wf_node d -> wf_node m ->
  wf_node (<[c := PDict m]> d).
Proof.
  intros Hc Hd Hm. constructor. intros c' v.
  destruct (decide (c' = c)) as [->|Hc'].
  - rewrite lookup_insert_eq. intros [= <-]. right. eauto.
  - rewrite lookup_insert_ne by done. destruct Hd as [d Hd]. apply Hd.
Qed.

Lemma wf_root_insert d c m :
  wf_root d -> wf_node m -> wf_root (<[c := PDict m]> d).
Proof.
  intros Hd Hm c' v. destruct (decide (c' = c)) as [->|Hc'].
  - rewrite lookup_insert_eq. intros [= <-]. eauto.
  - rewrite lookup_insert_ne by done. apply Hd.
Qed.

(** Below the first level, a word without the marker character goes in
    without an exception, keeps the shape, and changes every answer by
    what the word alone would answer. *)
Lemma insert_word_node w l d :
  pure w = true -> wf_node d ->
  (insert_word w l d).2 = None /\
  wf_node (insert_word w l d).1 /\
  forall q, answer q (insert_word w l d).1 =
            join (answer q d) (answer q (insert_word w l ∅).1).
Proof.
  revert d. induction w as [|c w IH]; intros d Hw Hd.
  - simpl. rewrite lookup_empty. simpl.
    destruct (d !! FINISH_MARKER) as [v|] eqn:Hv.
    + destruct (wf_node_marker d v Hd Hv) as (s & ->). simpl.
      split; [done|]. split; [by apply wf_node_insert_marker|].
      intros [|a q].
      * rewrite !answer_nil, !lookup_insert_eq, Hv. done.
      * rewrite !answer_cons. destruct (decide (a = FINISH_MARKER)) as [->|Ha].
        -- rewrite !lookup_insert_eq, Hv, !answer_val_set.
           destruct (decide (probe q ∈ s)), (decide (probe q ∈ {[l]})),
             (decide (probe q ∈ s ∪ {[l]})); simpl; try done; set_solver.
        -- rewrite !lookup_insert_ne, lookup_empty by done.
           by rewrite join_empty_r.
    + simpl. split; [done|]. split; [by apply wf_node_insert_marker|].
      intros [|a q].
      * rewrite !answer_nil, !lookup_insert_eq, Hv. simpl.
        by rewrite (left_id_L ∅ (∪)).
      * rewrite !answer_cons. destruct (decide (a = FINISH_MARKER)) as [->|Ha].
        -- rewrite !lookup_insert_eq, Hv. by rewrite join_empty_l.
        -- rewrite !lookup_insert_ne, lookup_empty by done.
           by rewrite join_empty_r.
  - simpl in Hw. case_decide as Hc; [done|].
    simpl. rewrite lookup_empty.
    destruct (IH ∅ Hw wf_node_empty) as (He0 & Hwf0 & _).
    destruct (insert_word w l ∅) as [m0 e0] eqn:Hins0. simpl in *. subst e0.
    destruct (d !! c) as [v|] eqn:Hv.
    + destruct (wf_node_child d c v Hd Hc Hv) as (m & -> & Hm).
      destruct (IH m Hw Hm) as (He & Hwf & Hq).
      destruct (insert_word w l m) as [m' e']. simpl in *. subst e'.
      split; [done|]. split; [by apply wf_node_insert_child|].
      intros [|a q].
      * rewrite !answer_nil, !lookup_insert_ne, lookup_empty by done.
        by rewrite join_empty_r.
      * rewrite !answer_cons. destruct (decide (a = c)) as [->|Ha].
        -- rewrite !lookup_insert_eq, Hv. apply Hq.
        -- rewrite !lookup_insert_ne, lookup_empty by done.
           by rewrite join_empty_r.
    + simpl. split; [done|]. split; [by apply wf_node_insert_child|].
      intros [|a q].
      * rewrite !answer_nil, !lookup_insert_ne, lookup_empty by done.
        by rewrite join_empty_r.
      * rewrite !answer_cons. destruct (decide (a = c)) as [->|Ha].
        -- rewrite !lookup_insert_eq, Hv. by rewrite join_empty_l.
        -- rewrite !lookup_insert_ne, lookup_empty by done.
           by rewrite join_empty_r.
Qed.

(** The keys of a dictionary after an insertion. *)
Lemma insert_word_dom w l d :
  dom (insert_word w l d).1 = dom d ∪ dom (insert_word w l ∅).1.
Proof.
  destruct w as [|c w]; simpl; rewrite lookup_empty.
  - destruct (d !! FINISH_MARKER) as [[m|s]|] eqn:Hv; simpl;
      rewrite ?dom_insert_L.
    + apply (elem_of_dom_2 (D:=gset ascii)) in Hv. set_solver.
    + set_solver.
    + set_solver.
  - destruct (insert_word w l ∅) as [m0 e0].
    destruct (d !! c) as [[m|s]|] eqn:Hv; simpl.
    + destruct (insert_word w l m) as [m' e']. simpl.
      rewrite !dom_insert_L. set_solver.
    + rewrite dom_insert_L. apply (elem_of_dom_2 (D:=gset ascii)) in Hv.
      set_solver.
    + rewrite !dom_insert_L. set_solver.
Qed.

(** At the first level, a clean word goes in without an exception, keeps
    the shape, and changes every answer by what the word alone would
    answer. *)
Lemma insert_word_root w l d :
  clean w = true -> wf_root d ->
  (insert_word w l d).2 = None /\
  wf_root (insert_word w l d).1 /\
  forall q, answer q (insert_word w l d).1 =
            join (answer q d) (answer q (insert_word w l ∅).1).
Proof.
  destruct w as [|c w]; [done|]. simpl. intros Hw Hd. rewrite lookup_empty.
  destruct (insert_word_node w l ∅ Hw wf_node_empty) as (He0 & Hwf0 & _).
  pose proof (insert_word_dom w l) as Hdom.
  pose proof (insert_word_node w l) as Hnode.
  destruct (insert_word w l ∅) as [m0 e0]. simpl in *. subst e0.
  destruct (d !! c) as [v|] eqn:Hv.
  - destruct (Hd c v Hv) as (m & -> & Hm).
    destruct (Hnode m Hw Hm) as (He & Hwf & Hq). specialize (Hdom m).
    destruct (insert_word w l m) as [m' e']. simpl in *. subst e'.
    split; [done|]. split; [by apply wf_root_insert|].
    intros [|a q].
    + rewrite !answer_nil. destruct (decide (c = FINISH_MARKER)) as [->|Hc].
      * rewrite !lookup_insert_eq, Hv. simpl.
        by rewrite Hdom, set_map_union_L.
      * rewrite !lookup_insert_ne, lookup_empty by done.
        by rewrite join_empty_r.
    + rewrite !answer_cons. destruct (decide (a = c)) as [->|Ha].
      * rewrite !lookup_insert_eq, Hv. apply Hq.
      * rewrite !lookup_insert_ne, lookup_empty by done.
        by rewrite join_empty_r.
  - simpl. split; [done|]. split; [by apply wf_root_insert|].
    intros [|a q].
    + rewrite !answer_nil. destruct (decide (c = FINISH_MARKER)) as [->|Hc].
      * rewrite !lookup_insert_eq, Hv. by rewrite join_empty_l.
      * rewrite !lookup_insert_ne, lookup_empty by done.
        by rewrite join_empty_r.
    + rewrite !answer_cons. destruct (decide (a = c)) as [->|Ha].
      * rewrite !lookup_insert_eq, Hv. by rewrite join_empty_l.
      * rewrite !lookup_insert_ne, lookup_empty by done.
        by rewrite join_empty_r.
Qed.

(** The same for a list of clean words. *)
Lemma make_trie_root words l d :
  Forall (fun w => clean w = true) words -> wf_root d ->
  (make_trie words l d).2 = None /\
  wf_root (make_trie words l d).1 /\
  forall q, answer q (make_trie words l d).1 =
            join (answer q d) (answer q (make_trie words l ∅).1).
Proof.
  intros Hws. revert d. induction Hws as [|w words Hw Hws IH]; intros d Hd.
  - simpl. split; [done|]. split; [done|]. intros q.
    by rewrite answer_empty, join_empty_r.
  - simpl.
    destruct (insert_word_root w l d Hw Hd) as (He & Hwf & Hq).
    destruct (insert_word_root w l ∅ Hw wf_root_empty) as (He0 & Hwf0 & _).
    destruct (insert_word w l d) as [d1 e1].
    destruct (insert_word w l ∅) as [d0 e0]. simpl in *. subst e1 e0.
    destruct (IH d1 Hwf) as (He1 & Hwf1 & Hq1).
    destruct (IH d0 Hwf0) as (_ & _ & Hq0).
    split; [done|]. split; [done|]. intros q.
    by rewrite Hq1, Hq, Hq0, join_assoc.
Qed.

Lemma pure_app s t : pure (s +:+ t) = pure s && pure t.
Proof.
  induction s as [|c s IH]; [done|]. rewrite append_cons. simpl.
  by case_decide.
Qed.

Lemma pure_clean s : s <> EmptyString -> pure s = true -> clean s = true.
Proof. destruct s as [|c s]; [done|]. simpl. by case_decide. Qed.

(** The substrings of a clean token are clean words. *)
Lemma clean_generate_substrings t :
  clean_token t = true ->
  Forall (fun w => clean w = true) (generate_substrings t).
Proof.
  intros Ht. apply Forall_forall. intros s Hs.
  apply elem_of_generate_substrings in Hs as (Hne & pre & post & ->).
  destruct pre as [|c pre].
  - rewrite append_nil_l in Ht. destruct s as [|c s]; [done|].
    rewrite append_cons in Ht. simpl in *. rewrite pure_app in Ht.
    by apply andb_prop in Ht as [? _].
  - rewrite append_cons in Ht. simpl in Ht. rewrite !pure_app in Ht.
    apply andb_prop in Ht as [_ Ht]. apply andb_prop in Ht as [Ht _].
    by apply pure_clean.
Qed.

End shape.

(** * Names of the shelve files *)

Section names.

Lemma to_uint_nonnil (n : nat) : Nat.to_uint n <> Decimal.Nil.
Proof.
  rewrite <- (DecimalNat.Unsigned.of_to n), DecimalNat.Unsigned.to_of.
  unfold Decimal.unorm. by destruct (Decimal.nzhead (Nat.to_uint n)).
Qed.

(** [str] never gives the same digits for two counter values. *)
Lemma str_inj (n n' : nat) : str n = str n' -> n = n'.
Proof.
  unfold str. intros Heq.
  apply (f_equal NilZero.uint_of_string) in Heq.
  rewrite !NilZero.usu in Heq by apply to_uint_nonnil.
  injection Heq as Heq. by apply DecimalNat.Unsigned.to_uint_inj.
Qed.

Lemma append_inv_tail (s s' t : string) : s +:+ t = s' +:+ t -> s = s'.
Proof.
  revert s'. induction s as [|c s IH]; intros [|c' s'] Heq; [done| | |].
  - apply (f_equal String.length) in Heq.
    rewrite append_nil_l, append_cons in Heq. simpl in Heq.
    rewrite length_append in Heq. lia.
  - apply (f_equal String.length) in Heq.
    rewrite append_nil_l, append_cons in Heq. simpl in Heq.
    rewrite length_append in Heq. lia.
  - rewrite !append_cons in Heq. injection Heq as -> Heq. f_equal. by apply IH.
Qed.

Lemma dsfile_of_inj (n n' : nat) : dsfile_of n = dsfile_of n' -> n = n'.
Proof. unfold dsfile_of. intros Heq. by apply append_inv_tail, str_inj in Heq. Qed.

End names.

(** * The batched build against the single trie *)

Section build.

Implicit Types (σ : state) (b : locals) (T d : gmap ascii pyval).
Implicit Types (q line : string) (a : gset string + exn).

Lemma answers_inr q tries e : answers q tries (inr e) = inr e.
Proof. induction tries as [|d tries IH]; [done|]. apply IH. Qed.

Lemma answers_acc q tries a :
  answers q tries a = join a (answers q tries (inl ∅)).
Proof.
  revert a. induction tries as [|d tries IH]; intros a; cbn [answers].
  - by rewrite join_empty_r.
  - by rewrite IH, (IH (join (inl ∅) _)), join_empty_l, join_assoc.
Qed.

Lemma answers_snoc q tries d a :
  answers q (tries ++ [d]) a = join (answers q tries a) (answer q d).
Proof.
  revert a. induction tries as [|d' tries IH]; intros a; [done|]. apply IH.
Qed.

Lemma shelf_shelve_open i j σ : shelf i (shelve_open j σ) = shelf i σ.
Proof.
  unfold shelf, shelve_open. simpl.
  destruct (directory σ !! j) eqn:Hj; [done|].
  destruct (decide (i = j)) as [->|Hij].
  - by rewrite lookup_insert_eq, Hj.
  - by rewrite lookup_insert_ne.
Qed.

Lemma shelf_drop_shelf i file_db σ : shelf i (drop_shelf file_db σ) = shelf i σ.
Proof. by destruct file_db. Qed.

(** The loop of [search] gives the answers of the listed shelves. *)
Lemma search_loop_answers q ds R file_db σ :
  (search_loop q ds R file_db σ).2 =
  answers q (map (fun i => shelf i σ) ds) (inl R).
Proof.
  revert R file_db σ. induction ds as [|i ds IH]; intros R file_db σ; [done|].
  simpl. rewrite shelf_drop_shelf, shelf_shelve_open. unfold answer, answer_val.
  assert (map (fun j => shelf j (drop_shelf file_db (shelve_open i σ))) ds =
          map (fun j => shelf j σ) ds) as Hmap.
  { apply map_ext. intros j. by rewrite shelf_drop_shelf, shelf_shelve_open. }
  destruct (search_trie q (PDict (shelf i σ))) as [v| |e]; simpl.
  - by rewrite IH, Hmap.
  - by rewrite IH, Hmap, (right_id_L ∅ (∪)).
  - by rewrite answers_inr.
Qed.

Lemma search_answers q σ : (search q σ).2 = answers q (shelves σ) (inl ∅).
Proof. apply search_loop_answers. Qed.

Lemma datastores_flush c d σ :
  datastores (flush c d σ) = datastores σ ++ [dsfile_of c].
Proof. done. Qed.

Lemma directory_flush c d σ :
  directory (flush c d σ) =
  <[dsfile_of c := d ∪ shelf (dsfile_of c) σ]> (directory σ).
Proof.
  unfold flush. simpl. rewrite shelf_shelve_open. unfold shelve_open. simpl.
  destruct (directory σ !! dsfile_of c); [done|].
  by rewrite insert_insert_eq.
Qed.

Lemma named_below_mono n n' σ :
  named_below n σ -> n <= n' -> named_below n' σ.
Proof.
  intros [Hds Hdir] Hn. split; intros f Hf.
  - destruct (Hds f Hf) as (c & -> & Hc). exists c. split; [done|lia].
  - destruct (Hdir f Hf) as (c & -> & Hc). exists c. split; [done|lia].
Qed.

(** A flush under a fresh name leaves the earlier shelves as they are and
    adds one shelf holding the flushed dictionary. *)
Lemma shelves_flush n c d σ :
  named_below n σ -> n <= c -> shelves (flush c d σ) = shelves σ ++ [d].
Proof.
  intros [Hds Hdir] Hn. unfold shelves. rewrite datastores_flush, map_app.
  simpl. f_equal.
  - apply map_ext_in. intros i Hi. apply list_elem_of_In in Hi.
    unfold shelf. rewrite directory_flush.
    destruct (Hds i Hi) as (c' & -> & Hc').
    rewrite lookup_insert_ne; [done|].
    intros Heq. apply dsfile_of_inj in Heq. lia.
  - unfold shelf at 1. rewrite directory_flush, lookup_insert_eq. simpl.
    assert (directory σ !! dsfile_of c = None) as Hnone.
    { destruct (directory σ !! dsfile_of c) eqn:Hc; [|done].
      destruct (Hdir (dsfile_of c)) as (c' & Heq & Hc'); [by eauto|].
      apply dsfile_of_inj in Heq. lia. }
    unfold shelf. rewrite Hnone. simpl. by rewrite (right_id_L ∅ (∪)).
Qed.

Lemma named_below_flush n c d σ :
  named_below n σ -> n <= c -> named_below (S c) (flush c d σ).
Proof.
  intros [Hds Hdir] Hn. split; intros f.
  - rewrite datastores_flush, elem_of_app, list_elem_of_singleton.
    intros [Hf| ->].
    + destruct (Hds f Hf) as (c' & -> & Hc'). exists c'. split; [done|lia].
    + exists c. split; [done|lia].
  - rewrite directory_flush.
    destruct (decide (f = dsfile_of c)) as [->|Hne].
    + intros _. exists c. split; [done|lia].
    + rewrite lookup_insert_ne by done. intros Hf.
      destruct (Hdir f Hf) as (c' & -> & Hc'). exists c'. split; [done|lia].
Qed.

(** The strings of one line go into the batch dictionary and into the
    single trie alike. *)
Lemma insert_strings_single strings line b b' T :
  insert_strings strings line b = (b', None) ->
  wf_root (temp_dict b) -> wf_root T ->
  exists T',
    single_trie_strings strings line T = (T', None) /\
    count b' = count b + length strings /\
    wf_root (temp_dict b') /\ wf_root T' /\
    forall q a,
      join a (answer q (temp_dict b)) = answer q T ->
      join a (answer q (temp_dict b')) = answer q T'.
Proof.
  revert b T. induction strings as [|t strings IH]; intros b T Hins Hb HT.
  - simpl in *. injection Hins as <-. exists T. simpl.
    split; [done|]. split; [lia|]. done.
  - simpl in Hins. simpl.
    pose proof (make_trie_clean_token t line (temp_dict b)) as Hclean.
    destruct (make_trie (generate_substrings t) line (temp_dict b))
      as [d [e|]] eqn:Hmk; [done|].
    apply clean_generate_substrings in Hclean; [|done].
    destruct (make_trie_root _ line _ Hclean Hb) as (_ & Hd & Hqd).
    destruct (make_trie_root _ line _ Hclean HT) as (HeT & HT1 & HqT).
    rewrite Hmk in Hd, Hqd. simpl in Hd, Hqd.
    destruct (make_trie (generate_substrings t) line T) as [T1 eT].
    simpl in HeT, HT1, HqT. subst eT.
    destruct (IH (Locals (S (count b)) d) T1 Hins Hd HT1)
      as (T' & HT' & Hcount & Hwf & HwfT & Hq).
    exists T'. split; [done|]. split; [simpl in Hcount; lia|].
    split; [done|]. split; [done|].
    intros q a Ha. apply Hq. simpl.
    by rewrite Hqd, HqT, <- join_assoc, Ha.
Qed.

(** The batched loop and the single trie, line by line: what the listed
    shelves and the batch dictionary answer together is what the single
    trie answers. *)
Lemma parse_lines_single fp b σ b' σ' T :
  parse_lines fp b σ = (b', σ', None) ->
  named_below (count b) σ -> wf_root (temp_dict b) -> wf_root T ->
  exists T',
    single_trie_lines fp T = (T', None) /\
    named_below (count b') σ' /\
    wf_root (temp_dict b') /\ wf_root T' /\
    forall q,
      join (answers q (shelves σ) (inl ∅)) (answer q (temp_dict b)) =
        answer q T ->
      join (answers q (shelves σ') (inl ∅)) (answer q (temp_dict b')) =
        answer q T'.
Proof.
  revert b σ T. induction fp as [|raw fp IH]; intros b σ T Hrun Hnb Hb HT.
  - simpl in Hrun. injection Hrun as <- <-. by exists T.
  - simpl in Hrun. simpl. unfold parse_line in Hrun.
    destruct (decide (strip raw = EmptyString)) as [Hblank|Hline].
    { by apply IH. }
    destruct (flush_due (count b)) eqn:Hdue.
    + destruct (insert_strings (split_space (strip raw)) (strip raw)
                  (Locals (count b) ∅)) as [b2 [e|]] eqn:Hins; [done|].
      destruct (insert_strings_single _ _ _ _ T Hins wf_root_empty HT)
        as (T1 & HT1 & Hcount & Hb2 & HwfT1 & Hq1).
      rewrite HT1.
      destruct (split_space_cons (strip raw)) as (t & ts & Hsplit).
      rewrite Hsplit in Hcount. simpl in Hcount.
      destruct (IH b2 (flush (count b) (temp_dict b) σ) T1 Hrun)
        as (T' & HT' & Hnb' & Hb' & HwfT' & Hq'); [|done|done|].
      { eapply named_below_mono;
          [by eapply named_below_flush|lia]. }
      exists T'. split; [done|]. split; [done|]. split; [done|].
      split; [done|]. intros q Hq. apply Hq', Hq1. simpl.
      erewrite shelves_flush by done.
      by rewrite answers_snoc, answer_empty, join_empty_r.
    + destruct (insert_strings (split_space (strip raw)) (strip raw) b)
        as [b2 [e|]] eqn:Hins; [done|].
      destruct (insert_strings_single _ _ _ _ T Hins Hb HT)
        as (T1 & HT1 & Hcount & Hb2 & HwfT1 & Hq1).
      rewrite HT1.
      destruct (IH b2 σ T1 Hrun) as (T' & HT' & Hnb' & Hb' & HwfT' & Hq');
        [|done|done|].
      { eapply named_below_mono; [done|lia]. }
      exists T'. split; [done|]. split; [done|]. split; [done|].
      split; [done|]. intros q Hq. by apply Hq', Hq1.
Qed.

(** A completed build answers every query as the single trie does. *)
Lemma parse_and_insert_single σ fp σ' :
  input_file σ = Some fp -> directory σ = ∅ -> datastores σ = [] ->
  parse_and_insert σ = (σ', None) ->
  exists T,
    single_trie fp = (T, None) /\ wf_root T /\
    forall q, (search q σ').2 = answer q T.
Proof.
  intros Hfp Hdir Hds. unfold parse_and_insert. rewrite Hfp.
  destruct (parse_lines fp (Locals 0 ∅) σ) as [[b σ1] [e|]] eqn:Hrun;
    [done|]. intros [= <-].
  assert (named_below 0 σ) as Hnb.
  { split; intros f; [rewrite Hds|rewrite Hdir, lookup_empty].
    - by intros ?%elem_of_nil.
    - by intros [? ?]. }
  destruct (parse_lines_single fp _ σ b σ1 ∅ Hrun Hnb wf_root_empty
              wf_root_empty) as (T & HT & Hnb1 & Hb & HwfT & Hq).
  exists T. split; [done|]. split; [done|]. intros q.
  rewrite search_answers. erewrite shelves_flush by done.
  rewrite answers_snoc. apply Hq.
  unfold shelves. rewrite Hds. cbn [map answers temp_dict].
  by rewrite join_empty_l.
Qed.

End build.

(** * What a completed build stores *)

Section storage.

Implicit Types (σ : state) (T d : gmap ascii pyval) (q line s t : string).

Lemma single_trie_strings_keeps strings line q l d :
  stored q l d -> stored q l (single_trie_strings strings line d).1.
Proof.
  revert d. induction strings as [|t strings IH]; intros d Hst; [done|].
  simpl. pose proof (make_trie_keeps (generate_substrings t) line q l d Hst).
  destruct (make_trie (generate_substrings t) line d) as [d1 [e|]];
    [done|by apply IH].
Qed.

Lemma single_trie_lines_keeps fp q l d :
  stored q l d -> stored q l (single_trie_lines fp d).1.
Proof.
  revert d. induction fp as [|raw fp IH]; intros d Hst; [done|].
  simpl. case_decide; [by apply IH|].
  pose proof (single_trie_strings_keeps (split_space (strip raw))
                (strip raw) q l d Hst).
  destruct (single_trie_strings (split_space (strip raw)) (strip raw) d)
    as [d1 [e|]]; [done|by apply IH].
Qed.

Lemma single_trie_strings_stored strings line d t s :
  (single_trie_strings strings line d).2 = None ->
  t ∈ strings -> s ∈ generate_substrings t ->
  stored s line (single_trie_strings strings line d).1.
Proof.
  revert d. induction strings as [|t0 strings IH]; intros d He Ht Hs.
  - by apply elem_of_nil in Ht.
  - simpl in *.
    pose proof (make_trie_stored (generate_substrings t0) line d s) as Hst.
    destruct (make_trie (generate_substrings t0) line d) as [d1 [e|]];
      [done|].
    apply elem_of_cons in Ht as [->|Ht]; [|by apply IH].
    apply single_trie_strings_keeps. by apply Hst.
Qed.

(** Every substring of every string of every non-blank line is stored in
    the single trie under its line. *)
Lemma single_trie_lines_stored fp d raw t s :
  (single_trie_lines fp d).2 = None ->
  raw ∈ fp -> strip raw <> EmptyString ->
  t ∈ split_space (strip raw) -> s ∈ generate_substrings t ->
  stored s (strip raw) (single_trie_lines fp d).1.
Proof.
  revert d. induction fp as [|raw0 fp IH]; intros d He Hraw Hline Ht Hs.
  - by apply elem_of_nil in Hraw.
  - simpl in *. destruct (decide (strip raw0 = EmptyString)) as [Hblank|Hne].
    + apply elem_of_cons in Hraw as [->|Hraw]; [done|by apply IH].
    + pose proof (single_trie_strings_stored (split_space (strip raw0))
                    (strip raw0) d t s) as Hst.
      destruct (single_trie_strings (split_space (strip raw0))
                  (strip raw0) d) as [d1 [e|]]; [done|].
      apply elem_of_cons in Hraw as [->|Hraw]; [|by apply IH].
      apply single_trie_lines_keeps. by apply Hst.
Qed.

(** After a completed build, a substring of a string of a line is answered
    with a set that holds the line. *)
Lemma build_finds σ fp σ' raw t s :
  input_file σ = Some fp -> directory σ = ∅ -> datastores σ = [] ->
  parse_and_insert σ = (σ', None) ->
  raw ∈ fp -> strip raw <> EmptyString ->
  t ∈ split_space (strip raw) -> s ∈ generate_substrings t ->
  exists R, (search s σ').2 = inl R /\ strip raw ∈ R.
Proof.
  intros Hfp Hdir Hds Hrun Hraw Hline Ht Hs.
  destruct (parse_and_insert_single σ fp σ' Hfp Hdir Hds Hrun)
    as (T & HT & _ & Hq).
  unfold single_trie in HT.
  pose proof (single_trie_lines_stored fp ∅ raw t s) as Hst.
  rewrite HT in Hst. simpl in Hst. destruct Hst as (S & HS & Hl); try done.
  exists S. rewrite Hq. unfold answer, answer_val. by rewrite HS.
Qed.

Lemma filter_eq_NoDup (l : string) (xs : list string) :
  NoDup xs -> l ∈ xs -> length (filter (fun x => x = l) xs) = 1.
Proof.
  induction 1 as [|x xs Hx Hnd IH]; intros Hl.
  - by apply elem_of_nil in Hl.
  - rewrite filter_cons. case_decide as Hxl.
    + subst x. simpl. f_equal.
      destruct (filter (fun x => x = l) xs) as [|y ys] eqn:Hf; [done|].
      assert (y ∈ filter (fun x => x = l) xs) as Hy
        by (rewrite Hf; apply elem_of_cons; by left).
      apply list_elem_of_filter in Hy as [-> Hy]. done.
    + apply elem_of_cons in Hl as [->|Hl]; [done|]. by apply IH.
Qed.

(** Inserting a word a second time under the same line changes nothing. *)
Lemma insert_word_again w l d d1 :
  insert_word w l d = (d1, None) -> insert_word w l d1 = (d1, None).
Proof.
  revert d d1. induction w as [|c w IH]; intros d d1; simpl.
  - destruct (d !! FINISH_MARKER) as [[m|S]|]; intros [= <-];
      rewrite lookup_insert_eq, insert_insert_eq; do 2 f_equal.
    + f_equal. set_solver.
    + f_equal. set_solver.
  - destruct (d !! c) as [[m|S]|]; [|done|].
    + destruct (insert_word w l m) as [m' [e|]] eqn:Hm; intros [= <-].
      rewrite lookup_insert_eq, (IH _ _ Hm). by rewrite insert_insert_eq.
    + destruct (insert_word w l ∅) as [m' [e|]] eqn:Hm; intros [= <-].
      rewrite lookup_insert_eq, (IH _ _ Hm). by rewrite insert_insert_eq.
Qed.

End storage.

(** * Counter values and handles *)

Section counters.

Implicit Types (σ : state) (b : locals) (q : string).

Lemma insert_strings_count strings line b b' :
  insert_strings strings line b = (b', None) ->
  count b' = count b + length strings.
Proof.
  revert b. induction strings as [|t strings IH]; intros b; simpl.
  - intros [= <-]. lia.
  - destruct (make_trie (generate_substrings t) line (temp_dict b))
      as [d [e|]]; [done|].
    intros Hins. apply IH in Hins. simpl in Hins. lia.
Qed.

(** The counter stands at the number of strings read so far, and the
    shelve files are named from strictly increasing counter values. *)
Lemma parse_lines_counters fp b σ b' σ' cs :
  parse_lines fp b σ = (b', σ', None) ->
  datastores σ = dsfile_of <$> cs ->
  StronglySorted lt cs -> Forall (fun c => c < count b) cs ->
  count b' = count b + strings_in fp /\
  exists cs',
    datastores σ' = dsfile_of <$> cs' /\
    StronglySorted lt cs' /\ Forall (fun c => c < count b') cs'.
Proof.
  revert b σ cs. induction fp as [|raw fp IH]; intros b σ cs Hrun Hds Hs Hlt.
  - simpl in *. injection Hrun as <- <-. split; [lia|by eauto].
  - simpl in *. unfold parse_line in Hrun.
    destruct (decide (strip raw = EmptyString)) as [Hblank|Hline].
    { by apply (IH b σ cs). }
    destruct (split_space_cons (strip raw)) as (t & ts & Hsplit).
    destruct (flush_due (count b)).
    + destruct (insert_strings (split_space (strip raw)) (strip raw)
                  (Locals (count b) ∅)) as [b2 [e|]] eqn:Hins; [done|].
      apply insert_strings_count in Hins. simpl in Hins.
      rewrite Hsplit in Hins. simpl in Hins.
      destruct (IH b2 _ (cs ++ [count b]) Hrun) as (Hcount & Hcs).
      * by rewrite datastores_flush, Hds, fmap_app.
      * apply StronglySorted_app_2; [|done|repeat constructor].
        intros c1 c2 Hc1 ->%list_elem_of_singleton.
        by apply (proj1 (Forall_forall _ _) Hlt).
      * apply Forall_app. split.
        -- eapply Forall_impl; [done|]. simpl. lia.
        -- constructor; [lia|constructor].
      * rewrite Hsplit. simpl. split; [lia|done].
    + destruct (insert_strings (split_space (strip raw)) (strip raw) b)
        as [b2 [e|]] eqn:Hins; [done|].
      apply insert_strings_count in Hins.
      rewrite Hsplit in Hins. simpl in Hins.
      destruct (IH b2 σ cs Hrun Hds Hs) as (Hcount & Hcs).
      * eapply Forall_impl; [done|]. simpl. lia.
      * rewrite Hsplit. simpl. split; [lia|done].
Qed.

(** The datastores of a completed build: strictly increasing counter
    values, the last one the number of strings in the file. *)
Lemma parse_and_insert_datastores σ fp σ' :
  input_file σ = Some fp -> datastores σ = [] ->
  parse_and_insert σ = (σ', None) ->
  exists cs,
    datastores σ' = dsfile_of <$> (cs ++ [strings_in fp]) /\
    StronglySorted lt (cs ++ [strings_in fp]) /\
    NoDup (datastores σ').
Proof.
  intros Hfp Hds. unfold parse_and_insert. rewrite Hfp.
  destruct (parse_lines fp (Locals 0 ∅) σ) as [[b σ1] [e|]] eqn:Hrun;
    [done|]. intros [= <-].
  destruct (parse_lines_counters fp _ σ b σ1 [] Hrun)
    as (Hcount & cs & Hcs & Hs & Hlt); [done|constructor|constructor|].
  simpl in Hcount. subst.
  assert (StronglySorted lt (cs ++ [count b])) as Hsorted.
  { apply StronglySorted_app_2; [|done|repeat constructor].
    intros c1 c2 Hc1 ->%list_elem_of_singleton.
    by apply (proj1 (Forall_forall _ _) Hlt). }
  exists cs. rewrite datastores_flush, Hcs, fmap_app, <- Hcount.
  split; [done|]. split; [done|].
  change ([dsfile_of (count b)]) with (dsfile_of <$> [count b]).
  rewrite <- fmap_app. apply NoDup_fmap_2.
  - intros c c'. apply dsfile_of_inj.
  - clear -Hsorted. induction Hsorted as [|c cs' Hs' IH Hall].
    + constructor.
    + constructor; [|done]. intros Hin.
      apply (proj1 (Forall_forall _ _) Hall) in Hin. lia.
Qed.




End counters.

(** * When the datastore is built *)

Section rebuild.

Lemma lookup_foldl_delete (l : list string)
    (dir : gmap string (gmap ascii pyval)) (k : string) :
  foldl (fun d i => delete i d) dir l !! k =
  if decide (k ∈ l) then None else dir !! k.
Proof.
  revert dir. induction l as [|i l IH]; intros dir; cbn [foldl].
  - destruct (decide (k ∈ [])) as [Hk|Hk]; [by apply elem_of_nil in Hk|done].
  - rewrite IH. destruct (decide (k = i)) as [->|Hne].
    + rewrite lookup_delete_eq.
      destruct (decide (i ∈ l)), (decide (i ∈ i :: l)); try done;
        exfalso; set_solver.
    + rewrite lookup_delete_ne by done.
      destruct (decide (k ∈ l)), (decide (k ∈ i :: l)); try done;
        exfalso; set_solver.
Qed.

(** Whenever [manage_datastore] builds, it builds into an empty directory
    with no datastore listed. *)
Lemma manage_datastore_builds_afresh force_rebuild fp
    (dir : gmap string (gmap ascii pyval)) :
  force_rebuild = true \/ dir = ∅ ->
  manage_datastore force_rebuild (ParseStore_init fp dir) =
  parse_and_insert (ParseStore_init fp ∅).
Proof.
  intros [-> | ->].
  - unfold manage_datastore. simpl. f_equal.
    unfold unlink_datastores, ParseStore_init. simpl. f_equal.
    apply map_eq. intros k. rewrite lookup_foldl_delete, lookup_empty.
    case_decide as Hk; [done|].
    apply not_elem_of_dom. intros Hdom. apply Hk.
    unfold listdir. simpl. by apply elem_of_elements.
  - assert (listdir (ParseStore_init fp ∅) = []) as Hls.
    { unfold listdir. simpl. by rewrite dom_empty_L, elements_empty. }
    unfold manage_datastore, initialize_datastore, unlink_datastores.
    rewrite Hls. by destruct force_rebuild.
Qed.

End rebuild.

(** * The marker key of the first level *)

Section marker.

Implicit Types (σ : state) (d : gmap ascii pyval) (line s t w : string).

Lemma insert_word_marker c w l d :
  c <> FINISH_MARKER ->
  (insert_word (String c w) l d).1 !! FINISH_MARKER = d !! FINISH_MARKER.
Proof.
  intros Hc. simpl. destruct (d !! c) as [[m|S]|]; [| done |].
  - destruct (insert_word w l m). simpl. by rewrite lookup_insert_ne.
  - destruct (insert_word w l ∅). simpl. by rewrite lookup_insert_ne.
Qed.

Lemma make_trie_marker words l d :
  Forall (fun w => starts_with_marker w = false /\ w <> EmptyString) words ->
  (make_trie words l d).1 !! FINISH_MARKER = d !! FINISH_MARKER.
Proof.
  intros Hws. revert d. induction Hws as [|w words [Hw Hne] _ IH]; intros d;
    [done|].
  simpl. destruct w as [|c w]; [done|].
  simpl in Hw. case_decide as Hc; [done|].
  pose proof (insert_word_marker c w l d Hc) as Hm.
  destruct (insert_word (String c w) l d) as [d1 [e|]]; [done|].
  simpl in Hm. by rewrite IH.
Qed.

(** The substrings of a clean token that does not start with the marker
    character do not start with it either. *)
Lemma generate_substrings_marker t :
  clean_token t = true -> starts_with_marker t = false ->
  Forall (fun w => starts_with_marker w = false /\ w <> EmptyString)
         (generate_substrings t).
Proof.
  intros Hclean Hstart. apply Forall_forall. intros s Hs.
  apply elem_of_generate_substrings in Hs as (Hne & pre & post & ->).
  split; [|done]. destruct s as [|c s]; [done|]. simpl.
  case_decide as Hc; [|done]. subst c. exfalso.
  destruct pre as [|c' pre].
  - rewrite append_nil_l, append_cons in Hstart. by simpl in Hstart.
  - rewrite append_cons in Hclean. simpl in Hclean.
    rewrite pure_app, append_cons in Hclean. simpl in Hclean.
    by rewrite andb_false_r in Hclean.
Qed.

Lemma single_trie_strings_marker strings line d :
  (single_trie_strings strings line d).2 = None ->
  Forall (fun t => starts_with_marker t = false) strings ->
  (single_trie_strings strings line d).1 !! FINISH_MARKER =
  d !! FINISH_MARKER.
Proof.
  intros He Hts. revert d He.
  induction Hts as [|t strings Ht _ IH]; intros d He; [done|].
  simpl in *.
  pose proof (make_trie_clean_token t line d) as Hclean.
  pose proof (make_trie_marker (generate_substrings t) line d) as Hm.
  destruct (make_trie (generate_substrings t) line d) as [d1 [e|]]; [done|].
  simpl in *. rewrite IH by done.
  apply Hm, generate_substrings_marker; [by apply Hclean|done].
Qed.

Lemma single_trie_lines_marker fp d :
  (single_trie_lines fp d).2 = None ->
  (forall raw t, raw ∈ fp -> strip raw <> EmptyString ->
                 t ∈ split_space (strip raw) ->
                 starts_with_marker t = false) ->
  (single_trie_lines fp d).1 !! FINISH_MARKER = d !! FINISH_MARKER.
Proof.
  revert d. induction fp as [|raw fp IH]; intros d He Hfp; [done|].
  simpl in *. assert (forall raw' t, raw' ∈ fp ->
    strip raw' <> EmptyString -> t ∈ split_space (strip raw') ->
    starts_with_marker t = false) as Hfp'.
  { intros raw' t Hin. apply Hfp, elem_of_cons. by right. }
  destruct (decide (strip raw = EmptyString)) as [Hblank|Hline];
    [by apply IH|].
  pose proof (single_trie_strings_marker (split_space (strip raw))
                (strip raw) d) as Hm.
  destruct (single_trie_strings (split_space (strip raw)) (strip raw) d)
    as [d1 [e|]]; [done|].
  simpl in *. rewrite IH by done. apply Hm; [done|].
  apply Forall_forall. intros t Ht.
  apply (Hfp raw t); [apply elem_of_cons; by left|done|done].
Qed.

(** After a completed build of a file none of whose strings starts with
    the marker character, the empty query returns the empty set. *)
Lemma empty_query_without_marker σ fp σ' :
  input_file σ = Some fp -> directory σ = ∅ -> datastores σ = [] ->
  parse_and_insert σ = (σ', None) ->
  (forall raw t, raw ∈ fp -> strip raw <> EmptyString ->
                 t ∈ split_space (strip raw) ->
                 starts_with_marker t = false) ->
  (search EmptyString σ').2 = inl ∅.
Proof.
  intros Hfp Hdir Hds Hrun Hstart.
  destruct (parse_and_insert_single σ fp σ' Hfp Hdir Hds Hrun)
    as (T & HT & _ & Hq).
  rewrite Hq, answer_nil. unfold single_trie in HT.
  pose proof (single_trie_lines_marker fp ∅) as Hm.
  rewrite HT in Hm. simpl in Hm. rewrite Hm by done.
  by rewrite lookup_empty.
Qed.

End marker.

(** * Properties of a completed build and of insertion *)

Section claims.

Implicit Types (σ : state) (T d : gmap ascii pyval) (q line s t : string).

(** C1.  After a completed build, searching any non-empty contiguous run
    [s] of a string [t] of a non-blank input line returns a result set
    that holds the stripped line. *)
Theorem substring_retrievable σ fp σ' raw t pre s post :
  input_file σ = Some fp -> directory σ = ∅ -> datastores σ = [] ->
  parse_and_insert σ = (σ', None) ->
  raw ∈ fp -> strip raw <> EmptyString ->
  t ∈ split_space (strip raw) ->
  t = pre +:+ s +:+ post -> s <> EmptyString ->
  exists R, (search s σ').2 = inl R /\ strip raw ∈ R.
Proof.
  intros Hfp Hdir Hds Hrun Hraw Hline Ht Hsplit Hs.
  eapply build_finds; try done.
  apply elem_of_generate_substrings. eauto.
Qed.

Lemma substring_retrievable_witness :
  let fp := ["cat dog" +:+ newline; "car bus" +:+ newline] in
  let σ := ParseStore_init (Some fp) ∅ in
  exists R, (search "og" (parse_and_insert σ).1).2 = inl R /\
            strip ("cat dog" +:+ newline) ∈ R.
Proof.
  intros fp σ.
  apply (substring_retrievable σ fp (parse_and_insert σ).1
           ("cat dog" +:+ newline) "dog" "d" "og" "");
    try done.
  - apply elem_of_cons. by left.
  - vm_compute. apply elem_of_cons. right. apply elem_of_cons. by left.
Defined.

(** C2.  After a completed batched build, every query is answered over
    the shelves exactly as it is answered over one shelf that holds the
    single trie built from the whole file, and that trie is built without
    an exception as well. *)
Theorem sharded_search_is_single_trie_search σ fp σ' :
  input_file σ = Some fp -> directory σ = ∅ -> datastores σ = [] ->
  parse_and_insert σ = (σ', None) ->
  exists T,
    single_trie fp = (T, None) /\
    forall q, (search q σ').2 = (search q (single_store T)).2.
Proof.
  intros Hfp Hdir Hds Hrun.
  destruct (parse_and_insert_single σ fp σ' Hfp Hdir Hds Hrun)
    as (T & HT & _ & Hq).
  exists T. split; [done|]. intros q.
  rewrite Hq, search_answers. unfold shelves, single_store, shelf.
  cbn [datastores directory map answers].
  by rewrite lookup_singleton_eq, join_empty_l.
Qed.

Lemma sharded_search_is_single_trie_search_witness :
  let fp := replicate 101 "ab" ++ ["bc d"] in
  let σ := ParseStore_init (Some fp) ∅ in
  datastores (parse_and_insert σ).1 = ["100.db"; "103.db"] /\
  exists T,
    single_trie fp = (T, None) /\
    forall q, (search q (parse_and_insert σ).1).2 =
              (search q (single_store T)).2.
Proof.
  intros fp σ. split; [by vm_compute|].
  by apply (sharded_search_is_single_trie_search σ fp).
Defined.



(** C9.  Inserting a word again under the same line leaves the trie as it
    is, with the line held once under the marker of the word; and after a
    completed build a run of characters shared by strings of two distinct
    lines is answered with a set that holds both lines, each once. *)
Theorem payload_holds_each_line_once :
  (forall w l d d1,
     insert_word w l d = (d1, None) ->
     insert_word w l d1 = (d1, None) /\
     exists S, search_trie w (PDict d1) = Hit (PSet S) /\
               length (filter (fun x => x = l) (elements S)) = 1) /\
  (forall σ fp σ' raw1 raw2 t1 t2 pre1 post1 pre2 post2 s,
     input_file σ = Some fp -> directory σ = ∅ -> datastores σ = [] ->
     parse_and_insert σ = (σ', None) ->
     raw1 ∈ fp -> raw2 ∈ fp ->
     strip raw1 <> EmptyString -> strip raw2 <> EmptyString ->
     strip raw1 <> strip raw2 ->
     t1 ∈ split_space (strip raw1) -> t2 ∈ split_space (strip raw2) ->
     t1 = pre1 +:+ s +:+ post1 -> t2 = pre2 +:+ s +:+ post2 ->
     s <> EmptyString ->
     exists R,
       (search s σ').2 = inl R /\
       length (filter (fun x => x = strip raw1) (elements R)) = 1 /\
       length (filter (fun x => x = strip raw2) (elements R)) = 1 /\
       NoDup (elements R)).
Proof.
  split.
  - intros w l d d1 Hins. split; [by eapply insert_word_again|].
    pose proof (insert_word_stored w l d) as Hst. rewrite Hins in Hst.
    destruct Hst as (S & HS & Hl); [done|]. exists S. split; [done|].
    apply filter_eq_NoDup; [apply NoDup_elements|by apply elem_of_elements].
  - intros σ fp σ' raw1 raw2 t1 t2 pre1 post1 pre2 post2 s
      Hfp Hdir Hds Hrun Hraw1 Hraw2 Hl1 Hl2 _ Ht1 Ht2 Hs1 Hs2 Hs.
    destruct (build_finds σ fp σ' raw1 t1 s) as (R & HR & HR1); try done.
    { apply elem_of_generate_substrings. eauto. }
    destruct (build_finds σ fp σ' raw2 t2 s) as (R' & HR' & HR2); try done.
    { apply elem_of_generate_substrings. eauto. }
    rewrite HR in HR'. injection HR' as <-.
    exists R. split; [done|].
    split; [|split]; [| |apply NoDup_elements];
      (apply filter_eq_NoDup; [apply NoDup_elements|by apply elem_of_elements]).
Qed.

Lemma payload_holds_each_line_once_witness :
  let σ := ParseStore_init (Some ["banana cat"; "nab"]) ∅ in
  (insert_word "na" "banana cat" (insert_word "na" "banana cat" ∅).1 =
     ((insert_word "na" "banana cat" ∅).1, None)) /\
  exists R,
    (search "na" (parse_and_insert σ).1).2 = inl R /\
    length (filter (fun x => x = strip "banana cat") (elements R)) = 1 /\
    length (filter (fun x => x = strip "nab") (elements R)) = 1 /\
    NoDup (elements R).
Proof.
  intros σ. destruct payload_holds_each_line_once as [Hagain Hboth]. split.
  - by apply (Hagain "na" "banana cat" ∅).
  - apply (Hboth σ ["banana cat"; "nab"] (parse_and_insert σ).1
             "banana cat" "nab" "banana" "nab" "ba" "na" "" "b" "na");
      try done.
    + apply elem_of_cons. by left.
    + apply elem_of_cons. right. apply elem_of_cons. by left.
    + vm_compute. apply elem_of_cons. by left.
    + vm_compute. apply elem_of_cons. by left.
Defined.

(** C10.  A call of [make_trie] keeps every path of keys that the
    dictionary had, with a dictionary still a dictionary and a set of
    lines still a set holding at least the same lines; so every line
    found under the marker of a word before the call is found there after
    it, whether or not the call raises. *)
Theorem make_trie_only_adds words l d :
  (forall path v,
     walk path (PDict d) = Some v ->
     exists v', walk path (PDict (make_trie words l d).1) = Some v' /\
                grows v v') /\
  (forall q S x,
     search_trie q (PDict d) = Hit (PSet S) -> x ∈ S ->
     exists S', search_trie q (PDict (make_trie words l d).1) = Hit (PSet S') /\
                x ∈ S').
Proof.
  split.
  - intros path v. apply make_trie_walk.
  - intros q S x HS Hx.
    destruct (make_trie_keeps words l q x d) as (S' & HS' & Hx'); [|by eauto].
    by exists S.
Qed.

Lemma make_trie_only_adds_witness :
  let d := (make_trie ["ab"; "b"] "ab c" ∅).1 in
  exists S',
    search_trie "b" (PDict (make_trie ["b"; "bd"] "bd" d).1) = Hit (PSet S') /\
    "ab c" ∈ S'.
Proof.
  intros d.
  destruct (make_trie_only_adds ["b"; "bd"] "bd" d) as [_ Hlines].
  apply (Hlines "b" {["ab c"]} "ab c"); [by vm_compute|set_solver].
Defined.

End claims.

(** * Departures of the code from its specification *)

Section departures.

Implicit Types (σ : state) (q : string).

(** C3.  A string that starts with the marker character puts a dictionary
    under the marker key of the first level, and the empty query then
    returns the keys of that dictionary: for the one-line file
    ["_ab cd"] the empty query is answered with [{"_", "a"}], not with
    the empty set. *)
Theorem empty_query_returns_keys :
  let σ := ParseStore_init (Some ["_ab cd"]) ∅ in
  (parse_and_insert σ).2 = None /\
  (search "" (parse_and_insert σ).1).2 = inl {["_"; "a"]}.
Proof. by vm_compute. Qed.

(** C4.  The counter that names the shelve files advances once per string
    of a line, not once per line: the one-line file ["a b"] is written to
    ["2.db"]. *)
Theorem shard_name_counts_strings :
  let σ := ParseStore_init (Some ["a b"]) ∅ in
  length ["a b"] = 1 /\
  (parse_and_insert σ).2 = None /\
  datastores (parse_and_insert σ).1 = ["2.db"].
Proof. by vm_compute. Qed.

(** C5.  One hundred lines of two strings each are written to two shelve
    files, and one hundred and one such lines to three. *)
Theorem hundred_lines_two_shards :
  let build n := parse_and_insert (ParseStore_init (Some (replicate n "a b")) ∅) in
  (build 100).2 = None /\
  datastores (build 100).1 = ["100.db"; "200.db"] /\
  (build 101).2 = None /\
  datastores (build 101).1 = ["100.db"; "200.db"; "202.db"].
Proof. by vm_compute. Qed.

(** C6.  The flush after the loop is unconditional: an empty file, and a
    file of blank lines, are written to the shelve file ["0.db"], which
    holds an empty dictionary. *)
Theorem empty_file_writes_a_shard :
  let build fp := parse_and_insert (ParseStore_init (Some fp) ∅) in
  build [] = (State (Some []) {["0.db" := ∅]} [] ["0.db"], None) /\
  directory (build [newline; "  " +:+ newline]).1 = {["0.db" := ∅]}.
Proof. by vm_compute. Qed.

(** C8, the claim as stated fails: with a shelve file in the directory and
    no forced rebuild, [manage_datastore] returns without an exception
    although the input file cannot be opened. *)
Lemma missing_input_with_shards_is_accepted :
  let σ := ParseStore_init None {["100.db" := ∅]} in
  input_file σ = None /\
  manage_datastore false σ = (State None {["100.db" := ∅]} [] ["100.db"], None).
Proof. by vm_compute. Qed.

(** C8, amended.  When the input file cannot be opened,
    [manage_datastore] raises [IOError] exactly when it goes on to build:
    on a forced rebuild, or when no datastore is listed after the
    directory has been read.  Otherwise it returns without an exception. *)
Theorem missing_input_fails_when_building force_rebuild σ :
  input_file σ = None ->
  (manage_datastore force_rebuild σ).2 =
  if force_rebuild || bool_decide (datastores σ ++ listdir σ = [])
  then Some IOError else None.
Proof.
  intros Hfp. unfold manage_datastore.
  destruct force_rebuild; simpl.
  - unfold parse_and_insert. simpl. by rewrite Hfp.
  - destruct (datastores σ ++ listdir σ) as [|i ds] eqn:Hds.
    + unfold parse_and_insert. simpl. by rewrite Hfp.
    + done.
Qed.

Lemma missing_input_fails_when_building_witness :
  (manage_datastore true (ParseStore_init None {["100.db" := ∅]})).2 =
    Some IOError /\
  (manage_datastore false (ParseStore_init None ∅)).2 = Some IOError.
Proof.
  split.
  - exact (missing_input_fails_when_building true
             (ParseStore_init None {["100.db" := ∅]}) eq_refl).
  - exact (missing_input_fails_when_building false
             (ParseStore_init None ∅) eq_refl).
Defined.

End departures.

(** * The substring expander and the trie on their own *)

Section expander.

Implicit Types (d : gmap ascii pyval) (w l s t : string).

(** X1.  [generate_substrings] yields exactly the non-empty contiguous
    runs of its argument: a string is in the list if and only if it is
    not empty and the argument is some prefix, then it, then some
    suffix. *)
Theorem generate_substrings_runs s t :
  s ∈ generate_substrings t <->
  s <> EmptyString /\ exists pre post, t = pre +:+ s +:+ post.
Proof. apply elem_of_generate_substrings. Qed.

Lemma length_generate_aux (f : nat -> nat -> string) (n k m : nat) :
  k + m = n ->
  2 * length (flat_map (fun start => map (f start) (seq start (n - start)))
                       (seq k m)) = m * (m + 1).
Proof.
  revert k. induction m as [|m IH]; intros k Hn; [done|].
  simpl. rewrite length_app, length_map, length_seq.
  specialize (IH (S k)). nia.
Qed.

(** X2.  A string of length [L] has [L * (L + 1) / 2] entries in
    [generate_substrings], repeated runs counted as often as they
    occur. *)
Theorem generate_substrings_length t :
  2 * length (generate_substrings t) =
  String.length t * (String.length t + 1).
Proof. unfold generate_substrings. by apply length_generate_aux. Qed.

(** X3.  When [make_trie] returns without an exception, [search_trie]
    finds every word of the list, and the set it returns holds the
    parent string. *)
Theorem make_trie_then_search words l d w :
  (make_trie words l d).2 = None -> w ∈ words ->
  exists S,
    search_trie w (PDict (make_trie words l d).1) = Hit (PSet S) /\ l ∈ S.
Proof. apply make_trie_stored. Qed.

Lemma make_trie_then_search_witness :
  exists S,
    search_trie "og" (PDict (make_trie (generate_substrings "dog")
                                       "cat dog" ∅).1) = Hit (PSet S) /\
    "cat dog" ∈ S.
Proof.
  apply (make_trie_then_search (generate_substrings "dog") "cat dog" ∅ "og").
  - by vm_compute.
  - vm_compute. do 4 (apply elem_of_cons; right). apply elem_of_cons. by left.
Defined.

Lemma insert_word_empty_ok w l : (insert_word w l ∅).2 = None.
Proof.
  induction w as [|c w IH]; simpl; rewrite lookup_empty; [done|].
  by destruct (insert_word w l ∅).
Qed.

Lemma insert_word_raises w l d e :
  (insert_word w l d).2 = Some e ->
  (insert_word w l d).1 = d /\ e = AttributeError.
Proof.
  revert d. induction w as [|c w IH]; intros d; simpl.
  - destruct (d !! FINISH_MARKER) as [[m|S]|]; simpl; [|done..].
    by intros [= <-].
  - destruct (d !! c) as [[m|S]|] eqn:Hc; simpl.
    + specialize (IH m). destruct (insert_word w l m) as [m' e']. simpl in *.
      intros He. destruct (IH He) as [-> ->]. by rewrite insert_id.
    + by intros [= <-].
    + pose proof (insert_word_empty_ok w l) as Hok.
      destruct (insert_word w l ∅) as [m' e']. simpl in *. congruence.
Qed.

Lemma make_trie_raises words l d e :
  (make_trie words l d).2 = Some e -> e = AttributeError.
Proof.
  revert d. induction words as [|w words IH]; intros d; simpl; [done|].
  pose proof (insert_word_raises w l d) as Hw.
  destruct (insert_word w l d) as [d1 [e1|]]; simpl in *.
  - intros [= <-]. by destruct (Hw e1).
  - apply IH.
Qed.

(** X4.  When [make_trie] raises, the exception is [AttributeError], the
    words before the offending one are inserted and the offending word
    is not inserted even in part: the dictionary is the one that
    [make_trie] gives, without an exception, for the words before it. *)
Theorem make_trie_stops_at_offending_word words l d e :
  (make_trie words l d).2 = Some e ->
  e = AttributeError /\
  exists before w after,
    words = before ++ w :: after /\
    make_trie before l d = ((make_trie words l d).1, None).
Proof.
  intros He. split; [by eapply make_trie_raises|].
  revert d He. induction words as [|w words IH]; intros d; simpl; [done|].
  pose proof (insert_word_raises w l d) as Hw.
  destruct (insert_word w l d) as [d1 [e1|]] eqn:Hins; simpl in *.
  - intros _. destruct (Hw e1 eq_refl) as [-> _].
    by exists [], w, words.
  - intros He. destruct (IH d1 He) as (before & w' & after & -> & Hrun).
    exists (w :: before), w', after. split; [done|].
    simpl. by rewrite Hins.
Qed.

Lemma make_trie_stops_at_offending_word_witness :
  exists before w after,
    ["a"; "a_"; "b"] = before ++ w :: after /\
    make_trie before "a_ b" ∅ =
      ((make_trie ["a"; "a_"; "b"] "a_ b" ∅).1, None).
Proof.
  assert ((make_trie ["a"; "a_"; "b"] "a_ b" ∅).2 = Some AttributeError)
    as Hraise by (by vm_compute).
  by destruct (make_trie_stops_at_offending_word ["a"; "a_"; "b"] "a_ b" ∅
                 AttributeError Hraise) as [_ H].
Defined.

End expander.

(** * When the build raises *)

Section raising.

Implicit Types (σ : state) (b : locals) (d : gmap ascii pyval).
Implicit Types (line t : string).

Lemma make_trie_token t l d :
  wf_root d ->
  (make_trie (generate_substrings t) l d).2 =
    (if clean_token t then None else Some AttributeError) /\
  (clean_token t = true -> wf_root (make_trie (generate_substrings t) l d).1).
Proof.
  intros Hd. destruct (clean_token t) eqn:Ht.
  - destruct (make_trie_root _ l d (clean_generate_substrings t Ht) Hd)
      as (He & Hwf & _). done.
  - split; [|done].
    destruct (make_trie (generate_substrings t) l d).2 as [e|] eqn:He.
    + by rewrite (make_trie_raises _ _ _ _ He).
    + apply make_trie_clean_token in He. congruence.
Qed.

Lemma insert_strings_raises strings line b :
  wf_root (temp_dict b) ->
  (insert_strings strings line b).2 =
    (if forallb clean_token strings then None else Some AttributeError) /\
  (forallb clean_token strings = true ->
   wf_root (temp_dict (insert_strings strings line b).1)).
Proof.
  revert b. induction strings as [|t strings IH]; intros b Hb; [done|].
  simpl. destruct (make_trie_token t line (temp_dict b) Hb) as [He Hwf].
  destruct (make_trie (generate_substrings t) line (temp_dict b))
    as [d e]. simpl in *. subst e.
  destruct (clean_token t); [|done]. simpl.
  apply (IH (Locals (S (count b)) d)). by apply Hwf.
Qed.

Lemma parse_lines_raises fp b σ :
  wf_root (temp_dict b) ->
  (parse_lines fp b σ).2 =
  if clean_file fp then None else Some AttributeError.
Proof.
  revert b σ. induction fp as [|raw fp IH]; intros b σ Hb; [done|].
  simpl. unfold parse_line, clean_line.
  destruct (decide (strip raw = EmptyString)) as [Hblank|Hline].
  { rewrite Hblank. simpl. by apply IH. }
  destruct (flush_due (count b)).
  - destruct (insert_strings_raises (split_space (strip raw)) (strip raw)
                (Locals (count b) ∅) wf_root_empty) as [He Hwf].
    destruct (insert_strings (split_space (strip raw)) (strip raw)
                (Locals (count b) ∅)) as [b2 e]. simpl in *. subst e.
    destruct (forallb clean_token (split_space (strip raw))); [|done].
    simpl. apply IH. by apply Hwf.
  - destruct (insert_strings_raises (split_space (strip raw)) (strip raw)
                b Hb) as [He Hwf].
    destruct (insert_strings (split_space (strip raw)) (strip raw) b)
      as [b2 e]. simpl in *. subst e.
    destruct (forallb clean_token (split_space (strip raw))); [|done].
    simpl. apply IH. by apply Hwf.
Qed.

(** X5.  A build that returns without an exception has read a file in
    which every string of every line has the marker character ["_"] at
    most in first place, whatever the datastore directory holds: one
    string with ["_"] after its first character keeps [parse_and_insert]
    from completing. *)
Theorem completed_build_has_clean_strings σ fp σ' :
  input_file σ = Some fp ->
  parse_and_insert σ = (σ', None) ->
  clean_file fp = true.
Proof.
  intros Hfp. unfold parse_and_insert. rewrite Hfp.
  pose proof (parse_lines_raises fp (Locals 0 ∅) σ wf_root_empty) as He.
  destruct (parse_lines fp (Locals 0 ∅) σ) as [[b σ1] e]. simpl in *.
  subst e. by destruct (clean_file fp).
Qed.

Lemma completed_build_has_clean_strings_witness :
  let fp := ["cat dog"; "_private x"] in
  (parse_and_insert (ParseStore_init (Some fp) ∅)).2 = None /\
  clean_file fp = true.
Proof.
  intros fp. split; [by vm_compute|].
  apply (completed_build_has_clean_strings
           (ParseStore_init (Some fp) ∅) fp
           (parse_and_insert (ParseStore_init (Some fp) ∅)).1);
    [done|by vm_compute].
Defined.

End raising.

(** * What a search returns *)

Section exact.

Implicit Types (σ : state) (d T : gmap ascii pyval).
Implicit Types (q w l line s t : string).

(** Below the first level, the trie of one word answers a query without
    the marker character with the line if the query is the word, and with
    nothing otherwise. *)
Lemma answer_single_node q w l :
  pure q = true -> pure w = true ->
  answer q (insert_word w l ∅).1 =
  if decide (q = w) then inl {[l]} else inl ∅.
Proof.
  revert q. induction w as [|c w IH]; intros q Hq Hw.
  - simpl. rewrite lookup_empty. simpl. destruct q as [|a q].
    + by rewrite answer_nil, lookup_insert_eq.
    + simpl in Hq. case_decide as Ha; [done|].
      rewrite answer_cons, lookup_insert_ne, lookup_empty by done.
      by rewrite decide_False.
  - simpl in Hw. case_decide as Hc; [done|].
    simpl. rewrite lookup_empty. specialize (IH).
    destruct (insert_word w l ∅) as [m e] eqn:Hins. simpl in *.
    destruct q as [|a q].
    + rewrite answer_nil, lookup_insert_ne, lookup_empty by done.
      by rewrite decide_False.
    + simpl in Hq. case_decide as Ha; [done|]. rewrite answer_cons.
      destruct (decide (a = c)) as [->|Hac].
      * rewrite lookup_insert_eq. fold (answer q m). rewrite (IH q Hq Hw).
        destruct (decide (q = w)) as [->|Hqw].
        -- by rewrite decide_True.
        -- rewrite decide_False; [done|]. by intros [= ?].
      * rewrite lookup_insert_ne, lookup_empty by done.
        rewrite decide_False; [done|]. by intros [= ? ?].
Qed.

(** The same at the first level, for clean words and clean queries. *)
Lemma answer_single_root q w l :
  clean q = true -> clean w = true ->
  answer q (insert_word w l ∅).1 =
  if decide (q = w) then inl {[l]} else inl ∅.
Proof.
  destruct q as [|a q]; [done|]. destruct w as [|c w]; [done|].
  simpl. intros Hq Hw. rewrite lookup_empty.
  pose proof (answer_single_node q w l Hq Hw) as Hnode.
  destruct (insert_word w l ∅) as [m e]. simpl in *.
  rewrite answer_cons. destruct (decide (a = c)) as [->|Hac].
  - rewrite lookup_insert_eq. fold (answer q m). rewrite Hnode.
    destruct (decide (q = w)) as [->|Hqw].
    + by rewrite decide_True.
    + rewrite decide_False; [done|]. by intros [= ?].
  - rewrite lookup_insert_ne, lookup_empty by done.
    rewrite decide_False; [done|]. by intros [= ? ?].
Qed.

(** What a clean query is answered after [make_trie] over clean words. *)
Lemma make_trie_exact q words l d R :
  clean q = true -> Forall (fun w => clean w = true) words ->
  wf_root d -> answer q d = inl R ->
  exists R',
    answer q (make_trie words l d).1 = inl R' /\
    forall x, x ∈ R' <-> x ∈ R \/ (x = l /\ q ∈ words).
Proof.
  intros Hq Hws. revert d R.
  induction Hws as [|w words Hw Hws IH]; intros d R Hd HR.
  - exists R. split; [done|]. intros x. split; [by left|].
    intros [?|[_ ?%elem_of_nil]]; done.
  - simpl. destruct (insert_word_root w l d Hw Hd) as (He & Hwf & Hans).
    specialize (Hans q). rewrite HR, (answer_single_root q w l Hq Hw) in Hans.
    destruct (insert_word w l d) as [d1 e1]. simpl in *. subst e1.
    destruct (decide (q = w)) as [->|Hqw]; simpl in Hans.
    + destruct (IH d1 _ Hwf Hans) as (R' & HR' & Hmem).
      exists R'. split; [done|]. intros x. rewrite Hmem.
      rewrite elem_of_union, elem_of_singleton, elem_of_cons. naive_solver.
    + destruct (IH d1 _ Hwf Hans) as (R' & HR' & Hmem).
      exists R'. split; [done|]. intros x. rewrite Hmem.
      rewrite elem_of_union, elem_of_cons. set_solver.
Qed.

Lemma single_trie_strings_exact q strings line d d' R :
  clean q = true ->
  single_trie_strings strings line d = (d', None) ->
  wf_root d -> answer q d = inl R ->
  wf_root d' /\
  exists R',
    answer q d' = inl R' /\
    forall x, x ∈ R' <->
      x ∈ R \/ (x = line /\ exists t, t ∈ strings /\ q ∈ generate_substrings t).
Proof.
  intros Hq. revert d R.
  induction strings as [|t strings IH]; intros d R Hrun Hd HR.
  - simpl in Hrun. injection Hrun as <-. split; [done|]. exists R.
    split; [done|]. intros x. split; [by left|].
    intros [?|(_ & t & ?%elem_of_nil & _)]; done.
  - simpl in Hrun.
    pose proof (make_trie_clean_token t line d) as Hclean.
    destruct (make_trie (generate_substrings t) line d) as [d1 [e|]] eqn:Hmk;
      [done|].
    apply clean_generate_substrings in Hclean; [|done].
    destruct (make_trie_root _ line d Hclean Hd) as (_ & Hwf & _).
    destruct (make_trie_exact q _ line d R Hq Hclean Hd HR)
      as (R1 & HR1 & Hmem1).
    rewrite Hmk in Hwf, HR1. simpl in Hwf, HR1.
    destruct (IH d1 R1 Hrun Hwf HR1) as (Hwf' & R' & HR' & Hmem).
    split; [done|]. exists R'. split; [done|]. intros x.
    rewrite Hmem, Hmem1. split.
    + intros [[?|[-> ?]]|(-> & t' & ? & ?)]; [by left|right..].
      * split; [done|]. exists t. split; [by apply elem_of_cons; left|done].
      * split; [done|]. exists t'. split; [by apply elem_of_cons; right|done].
    + intros [?|(-> & t' & [->|?]%elem_of_cons & ?)].
      * by left; left.
      * by left; right.
      * right. eauto.
Qed.

Lemma single_trie_lines_exact q fp d d' R :
  clean q = true ->
  single_trie_lines fp d = (d', None) ->
  wf_root d -> answer q d = inl R ->
  exists R',
    answer q d' = inl R' /\
    forall x, x ∈ R' <->
      x ∈ R \/
      exists raw t, raw ∈ fp /\ strip raw = x /\ x <> EmptyString /\
                    t ∈ split_space x /\ q ∈ generate_substrings t.
Proof.
  intros Hq. revert d R.
  induction fp as [|raw fp IH]; intros d R Hrun Hd HR.
  - simpl in Hrun. injection Hrun as <-. exists R.
    split; [done|]. intros x. split; [by left|].
    intros [?|(raw & t & ?%elem_of_nil & _)]; done.
  - simpl in Hrun.
    destruct (decide (strip raw = EmptyString)) as [Hblank|Hline].
    + destruct (IH d R Hrun Hd HR) as (R' & HR' & Hmem).
      exists R'. split; [done|]. intros x. rewrite Hmem. split.
      * intros [?|(raw' & t & ? & ?)]; [by left|right].
        exists raw', t. split; [by apply elem_of_cons; right|done].
      * intros [?|(raw' & t & [->|?]%elem_of_cons & Hx & Hne & ?)];
          [by left|congruence|right; by eauto 6].
    + destruct (single_trie_strings (split_space (strip raw)) (strip raw) d)
        as [d1 [e|]] eqn:Hstr; [done|].
      destruct (single_trie_strings_exact q _ _ d d1 R Hq Hstr Hd HR)
        as (Hwf & R1 & HR1 & Hmem1).
      destruct (IH d1 R1 Hrun Hwf HR1) as (R' & HR' & Hmem).
      exists R'. split; [done|]. intros x. rewrite Hmem, Hmem1. split.
      * intros [[?|(-> & t & ? & ?)]|(raw' & t & ? & ?)]; [by left|right..].
        -- exists raw, t. split; [by apply elem_of_cons; left|done].
        -- exists raw', t. split; [by apply elem_of_cons; right|done].
      * intros [?|(raw' & t & [->|?]%elem_of_cons & <- & Hne & ? & ?)].
        -- by left; left.
        -- left; right. eauto.
        -- right. by eauto 7.
Qed.

(** X6.  After a completed build, a clean query (not empty, the marker
    character at most in first place) never raises, and the set it
    returns holds exactly the stripped non-blank lines of the file that
    have a string in which the query occurs as a contiguous run: no line
    is missed and no line is returned that does not match. *)
Theorem search_returns_exactly_the_matching_lines σ fp σ' q :
  input_file σ = Some fp -> directory σ = ∅ -> datastores σ = [] ->
  parse_and_insert σ = (σ', None) ->
  clean q = true ->
  exists R, (search q σ').2 = inl R /\ forall l, l ∈ R <-> occurs q fp l.
Proof.
  intros Hfp Hdir Hds Hrun Hq.
  destruct (parse_and_insert_single σ fp σ' Hfp Hdir Hds Hrun)
    as (T & HT & _ & Hans).
  destruct (single_trie_lines_exact q fp ∅ T ∅ Hq HT wf_root_empty
              (answer_empty q)) as (R & HR & Hmem).
  exists R. rewrite Hans. split; [done|]. intros l. rewrite Hmem.
  unfold occurs. split.
  - intros [?%elem_of_empty|(raw & t & ? & ? & ? & ? & Hgen)]; [done|].
    apply elem_of_generate_substrings in Hgen as (_ & pre & post & ?).
    by exists raw, t, pre, post.
  - intros (raw & t & pre & post & ? & ? & ? & ? & ?). right.
    exists raw, t. repeat (split; [done|]).
    apply elem_of_generate_substrings. split; [by destruct q|by eauto].
Qed.

Lemma search_returns_exactly_the_matching_lines_witness :
  let fp := ["cat dog"; "car bus"] in
  let σ := ParseStore_init (Some fp) ∅ in
  exists R, (search "at" (parse_and_insert σ).1).2 = inl R /\
            forall l, l ∈ R <-> occurs "at" fp l.
Proof.
  intros fp σ.
  by apply (search_returns_exactly_the_matching_lines σ fp).
Defined.

Lemma mentions_app c s t : mentions c (s +:+ t) = mentions c s || mentions c t.
Proof.
  induction s as [|a s IH]; [done|]. rewrite append_cons. simpl.
  by case_decide.
Qed.

(** The strings that [split_space] returns hold no space. *)
Lemma split_space_no_space line t :
  t ∈ split_space line -> mentions " " t = false.
Proof.
  revert t. induction line as [|c line IH]; intros t; simpl.
  - by intros ->%list_elem_of_singleton.
  - case_decide as Hc.
    + intros [->|?]%elem_of_cons; [done|by apply IH].
    + destruct (split_space line) as [|t0 ts] eqn:Hsplit.
      * intros ->%list_elem_of_singleton. simpl. by rewrite decide_False.
      * intros [->|?]%elem_of_cons.
        -- simpl. rewrite decide_False by done. apply IH, elem_of_cons.
           by left.
        -- apply IH, elem_of_cons. by right.
Qed.

(** X7.  After a completed build, a clean query that holds a space
    returns the empty set, even when the phrase occurs in a line: lines
    are indexed string by string, and no string holds a space. *)
Theorem phrase_query_returns_nothing σ fp σ' q :
  input_file σ = Some fp -> directory σ = ∅ -> datastores σ = [] ->
  parse_and_insert σ = (σ', None) ->
  clean q = true -> mentions " " q = true ->
  (search q σ').2 = inl ∅.
Proof.
  intros Hfp Hdir Hds Hrun Hq Hsp.
  destruct (parse_and_insert_single σ fp σ' Hfp Hdir Hds Hrun)
    as (T & HT & _ & Hans).
  destruct (single_trie_lines_exact q fp ∅ T ∅ Hq HT wf_root_empty
              (answer_empty q)) as (R & HR & Hmem).
  rewrite Hans, HR. f_equal. apply set_eq. intros l. rewrite Hmem.
  split; [|by intros ?%elem_of_empty].
  intros [?%elem_of_empty|(raw & t & _ & _ & _ & Ht & Hgen)]; [done|].
  apply elem_of_generate_substrings in Hgen as (_ & pre & post & ->).
  apply split_space_no_space in Ht.
  rewrite !mentions_app, Hsp in Ht. by rewrite orb_true_r in Ht.
Qed.

Lemma phrase_query_returns_nothing_witness :
  let fp := ["cat dog"; "car bus"] in
  let σ := ParseStore_init (Some fp) ∅ in
  (search "cat dog" (parse_and_insert σ).1).2 = inl ∅.
Proof.
  intros fp σ. by apply (phrase_query_returns_nothing σ fp).
Defined.

End exact.

(** * Which datastores a build writes *)

Section shards.

Implicit Types (σ : state) (b : locals) (q : string).

Lemma parse_lines_flushes fp b σ b' σ' :
  parse_lines fp b σ = (b', σ', None) ->
  datastores σ' =
    datastores σ ++
    (dsfile_of <$> filter (fun c => flush_due c = true)
                          (line_starts fp (count b))) /\
  count b' = count b + strings_in fp.
Proof.
  revert b σ. induction fp as [|raw fp IH]; intros b σ Hrun.
  - simpl in *. injection Hrun as <- <-. by rewrite app_nil_r, Nat.add_0_r.
  - simpl in *. unfold parse_line in Hrun.
    destruct (decide (strip raw = EmptyString)) as [Hblank|Hline].
    { by apply IH. }
    rewrite filter_cons. destruct (flush_due (count b)) eqn:Hdue.
    + destruct (insert_strings (split_space (strip raw)) (strip raw)
                  (Locals (count b) ∅)) as [b2 [e|]] eqn:Hins; [done|].
      apply insert_strings_count in Hins. simpl in Hins.
      destruct (IH b2 _ Hrun) as [Hds Hcount].
      rewrite Hds, Hcount, Hins, datastores_flush, decide_True by done.
      rewrite fmap_cons, <- app_assoc. split; [done|lia].
    + destruct (insert_strings (split_space (strip raw)) (strip raw) b)
        as [b2 [e|]] eqn:Hins; [done|].
      apply insert_strings_count in Hins.
      destruct (IH b2 _ Hrun) as [Hds Hcount].
      rewrite Hds, Hcount, Hins, decide_False by done. split; [done|lia].
Qed.

Lemma parse_and_insert_flushes σ fp σ' :
  input_file σ = Some fp ->
  parse_and_insert σ = (σ', None) ->
  datastores σ' =
    datastores σ ++
    (dsfile_of <$> (filter (fun c => flush_due c = true) (line_starts fp 0)
                    ++ [strings_in fp])).
Proof.
  intros Hfp. unfold parse_and_insert. rewrite Hfp.
  destruct (parse_lines fp (Locals 0 ∅) σ) as [[b σ1] [e|]] eqn:Hrun;
    [done|]. intros [= <-].
  destruct (parse_lines_flushes _ _ _ _ _ Hrun) as [Hds Hcount].
  simpl in Hcount. subst.
  by rewrite datastores_flush, Hds, fmap_app, <- app_assoc, Hcount.
Qed.

(** X8.  A completed build appends one datastore for every non-blank
    line at whose start the number of strings read so far is a positive
    multiple of 100, named from that number, and one more at the end,
    named from the number of strings in the file. *)
Theorem parse_and_insert_flush_points σ fp σ' :
  input_file σ = Some fp ->
  parse_and_insert σ = (σ', None) ->
  datastores σ' =
    datastores σ ++
    (dsfile_of <$> (filter (fun c => flush_due c = true) (line_starts fp 0)
                    ++ [strings_in fp])).
Proof. apply parse_and_insert_flushes. Qed.

Lemma parse_and_insert_flush_points_witness :
  let fp := replicate 60 "a b" ++ [""; "c"] in
  let σ := ParseStore_init (Some fp) ∅ in
  datastores (parse_and_insert σ).1 = ["100.db"; "121.db"].
Proof.
  intros fp σ.
  exact (parse_and_insert_flush_points σ fp (parse_and_insert σ).1
           eq_refl eq_refl).
Defined.

(** X9.  The datastores of a completed build that started with none are
    named from strictly increasing counter values, the last of them the
    number of strings in the file, and no name occurs twice. *)
Theorem shard_names_strictly_increase σ fp σ' :
  input_file σ = Some fp -> datastores σ = [] ->
  parse_and_insert σ = (σ', None) ->
  exists cs,
    datastores σ' = dsfile_of <$> (cs ++ [strings_in fp]) /\
    StronglySorted lt (cs ++ [strings_in fp]) /\
    NoDup (datastores σ').
Proof. apply parse_and_insert_datastores. Qed.

Lemma shard_names_strictly_increase_witness :
  let fp := replicate 101 "ab" in
  let σ := ParseStore_init (Some fp) ∅ in
  exists cs,
    datastores (parse_and_insert σ).1 = dsfile_of <$> (cs ++ [strings_in fp]) /\
    StronglySorted lt (cs ++ [strings_in fp]) /\
    NoDup (datastores (parse_and_insert σ).1).
Proof.
  intros fp σ. by apply (shard_names_strictly_increase σ fp).
Defined.

Lemma line_starts_one_string fp c :
  Forall (fun raw => strip raw = EmptyString \/
                     length (split_space (strip raw)) = 1) fp ->
  line_starts fp c = seq c (strings_in fp).
Proof.
  intros Hfp. revert c. induction Hfp as [|raw fp Hraw _ IH]; intros c;
    [done|].
  simpl. destruct (decide (strip raw = EmptyString)) as [Hblank|Hline].
  - apply IH.
  - destruct Hraw as [?| ->]; [done|]. simpl. f_equal.
    rewrite IH. f_equal. lia.
Qed.

Lemma flush_due_false c :
  c < 100 \/ 100 < c < 200 -> flush_due c = false.
Proof.
  intros Hc. unfold flush_due. apply andb_false_iff.
  destruct (decide (c = 0)) as [->|Hc0]; [by left|right].
  apply Nat.eqb_neq. intros Hmod.
  pose proof (Nat.div_mod_eq c 100) as Hdiv. rewrite Hmod in Hdiv. lia.
Qed.

Lemma filter_flush_due_none (l : list nat) :
  Forall (fun c => c < 100 \/ 100 < c < 200) l ->
  filter (fun c => flush_due c = true) l = [].
Proof.
  induction 1 as [|c l Hc _ IH]; [done|].
  rewrite filter_cons, decide_False; [done|].
  by rewrite (flush_due_false c Hc).
Qed.

(** X10.  When every non-blank line holds exactly one string, a
    completed build that started with no datastore writes one datastore
    for up to 100 non-blank lines and two for 101 to 200 of them, the
    first named ["100.db"] and the last named from the number of
    non-blank lines. *)
Theorem one_string_lines_batches σ fp σ' :
  input_file σ = Some fp -> datastores σ = [] ->
  parse_and_insert σ = (σ', None) ->
  Forall (fun raw => strip raw = EmptyString \/
                     length (split_space (strip raw)) = 1) fp ->
  (strings_in fp <= 100 -> datastores σ' = [dsfile_of (strings_in fp)]) /\
  (100 < strings_in fp <= 200 ->
   datastores σ' = [dsfile_of 100; dsfile_of (strings_in fp)]).
Proof.
  intros Hfp Hds Hrun Hone.
  rewrite (parse_and_insert_flushes σ fp σ' Hfp Hrun), Hds.
  rewrite (line_starts_one_string fp 0 Hone). cbn [app]. split; intros Hn.
  - rewrite filter_flush_due_none; [done|].
    apply Forall_forall. intros c Hc%list_elem_of_In%in_seq. lia.
  - assert (seq 0 (strings_in fp) =
            seq 0 100 ++ [100] ++ seq 101 (strings_in fp - 101)) as ->.
    { replace (strings_in fp) with (100 + (1 + (strings_in fp - 101))) at 1
        by lia. by rewrite !seq_app. }
    rewrite !filter_app, (filter_flush_due_none (seq 0 100)).
    + rewrite (filter_flush_due_none (seq 101 _)).
      * by rewrite filter_cons, decide_True.
      * apply Forall_forall. intros c Hc%list_elem_of_In%in_seq. lia.
    + apply Forall_forall. intros c Hc%list_elem_of_In%in_seq. lia.
Qed.

Lemma one_string_lines_batches_witness :
  let build n := parse_and_insert (ParseStore_init (Some (replicate n "ab")) ∅) in
  datastores (build 100).1 = [dsfile_of 100] /\
  datastores (build 101).1 = [dsfile_of 100; dsfile_of 101].
Proof.
  intros build.
  assert (forall n, Forall (fun raw => strip raw = EmptyString \/
                      length (split_space (strip raw)) = 1)
                      (replicate n "ab")) as Hone.
  { intros n. apply Forall_forall. intros raw Hraw%elem_of_replicate.
    right. by destruct Hraw as [-> _]. }
  split.
  - destruct (one_string_lines_batches
                (ParseStore_init (Some (replicate 100 "ab")) ∅)
                (replicate 100 "ab") (build 100).1 eq_refl eq_refl)
      as [Hsmall _]; [by vm_compute|apply Hone|].
    apply Hsmall. apply Nat.leb_le. by vm_compute.
  - destruct (one_string_lines_batches
                (ParseStore_init (Some (replicate 101 "ab")) ∅)
                (replicate 101 "ab") (build 101).1 eq_refl eq_refl)
      as [_ Hlarge]; [by vm_compute|apply Hone|].
    apply Hlarge. split; [apply Nat.ltb_lt|apply Nat.leb_le]; by vm_compute.
Defined.

Lemma parse_lines_blank fp b σ :
  Forall (fun raw => strip raw = EmptyString) fp ->
  parse_lines fp b σ = (b, σ, None).
Proof.
  induction 1 as [|raw fp Hraw _ IH]; [done|].
  simpl. unfold parse_line. by rewrite decide_True.
Qed.

(** X11.  Over a file of blank lines only, however many, a build from a
    fresh [ParseStore] with an empty directory writes the one shelve file
    ["0.db"], holding an empty dictionary, lists it as the only
    datastore and leaves no handle open. *)
Theorem blank_file_builds_one_empty_shard fp :
  Forall (fun raw => strip raw = EmptyString) fp ->
  parse_and_insert (ParseStore_init (Some fp) ∅) =
  (State (Some fp) {["0.db" := ∅]} [] ["0.db"], None).
Proof.
  intros Hfp. unfold parse_and_insert. simpl.
  by rewrite (parse_lines_blank fp _ _ Hfp).
Qed.

Lemma blank_file_builds_one_empty_shard_witness :
  parse_and_insert (ParseStore_init (Some [newline; "  " +:+ newline]) ∅) =
  (State (Some [newline; "  " +:+ newline]) {["0.db" := ∅]} [] ["0.db"], None).
Proof.
  apply blank_file_builds_one_empty_shard.
  repeat constructor.
Defined.

End shards.

(** * Handles, later searches and rebuilds *)

Section handles_and_rebuild.

Implicit Types (σ : state) (b : locals) (q : string).

Lemma release_snoc (f : string) (hs : list string) :
  release f (hs ++ [f]) ≡ₚ hs.
Proof.
  induction hs as [|h hs IH]; simpl.
  - by rewrite decide_True.
  - case_decide as Hh.
    + subst h. by rewrite <- Permutation_cons_append.
    + by rewrite IH.
Qed.

Lemma handles_flush c d σ : handles (flush c d σ) ≡ₚ handles σ.
Proof. unfold flush. simpl. apply release_snoc. Qed.

Lemma handles_parse_lines fp b σ :
  handles (parse_lines fp b σ).1.2 ≡ₚ handles σ.
Proof.
  revert b σ. induction fp as [|raw fp IH]; intros b σ; [done|].
  simpl. unfold parse_line.
  destruct (decide (strip raw = EmptyString)) as [Hblank|Hline]; [apply IH|].
  destruct (flush_due (count b)).
  - destruct (insert_strings (split_space (strip raw)) (strip raw)
                (Locals (count b) ∅)) as [b2 [e|]]; cbn [fst snd].
    + apply handles_flush.
    + rewrite IH. apply handles_flush.
  - destruct (insert_strings (split_space (strip raw)) (strip raw) b)
      as [b2 [e|]]; cbn [fst snd]; [done|apply IH].
Qed.

Lemma handles_parse_and_insert σ :
  handles (parse_and_insert σ).1 ≡ₚ handles σ.
Proof.
  unfold parse_and_insert. destruct (input_file σ) as [fp|]; [|done].
  pose proof (handles_parse_lines fp (Locals 0 ∅) σ) as Hfp.
  destruct (parse_lines fp (Locals 0 ∅) σ) as [[b σ1] [e|]];
    cbn [fst snd] in *; [done|].
  by rewrite handles_flush.
Qed.

(** X12.  [parse_and_insert] closes every shelf it opens: the handles
    open after it are the handles that were open before it, whether it
    returns or raises; with none open before, none is open after. *)
Theorem parse_and_insert_closes_its_shelves σ :
  handles (parse_and_insert σ).1 ≡ₚ handles σ /\
  (handles σ = [] -> handles (parse_and_insert σ).1 = []).
Proof.
  pose proof (handles_parse_and_insert σ) as Hperm.
  split; [done|]. intros Hnil. rewrite Hnil in Hperm.
  by apply Permutation_nil_r.
Qed.

Lemma parse_and_insert_closes_its_shelves_witness :
  handles (parse_and_insert
             (ParseStore_init (Some (replicate 101 "ab")) ∅)).1 = [].
Proof.
  by apply (parse_and_insert_closes_its_shelves
              (ParseStore_init (Some (replicate 101 "ab")) ∅)).
Defined.

Lemma datastores_drop_shelf file_db σ :
  datastores (drop_shelf file_db σ) = datastores σ.
Proof. by destruct file_db. Qed.

Lemma search_loop_frame q ds R file_db σ :
  (forall i, shelf i (search_loop q ds R file_db σ).1 = shelf i σ) /\
  datastores (search_loop q ds R file_db σ).1 = datastores σ.
Proof.
  revert R file_db σ. induction ds as [|j ds IH]; intros R file_db σ.
  { simpl. split; [intros i; apply shelf_drop_shelf|].
    apply datastores_drop_shelf. }
  simpl.
  destruct (update R (search_trie q
             (PDict (shelf j (drop_shelf file_db (shelve_open j σ))))))
    as [R1|e]; cbn [fst snd].
  - destruct (IH R1 (Some j) (drop_shelf file_db (shelve_open j σ)))
      as [Hshelf Hds].
    split.
    + intros i. by rewrite Hshelf, shelf_drop_shelf, shelf_shelve_open.
    + by rewrite Hds, datastores_drop_shelf.
  - split.
    + intros i. by rewrite shelf_drop_shelf, shelf_shelve_open.
    + by rewrite datastores_drop_shelf.
Qed.

(** X14.  A search changes neither what any shelf holds nor the list of
    datastores, so it does not affect the searches that follow: a query
    gets the same answer after any other query as before it. *)
Theorem search_does_not_affect_later_searches q q' σ :
  (search q (search q' σ).1).2 = (search q σ).2.
Proof.
  rewrite !search_answers. unfold shelves, search.
  destruct (search_loop_frame q' (datastores σ) ∅ None σ) as [Hshelf Hds].
  rewrite Hds. f_equal. apply map_ext. intros i. apply Hshelf.
Qed.

Lemma search_trie_raises q v e :
  search_trie q v = Raised e -> e = TypeError.
Proof.
  revert v. induction q as [|c q IH]; intros [m|S]; simpl.
  - by destruct (m !! FINISH_MARKER).
  - case_decide; [by intros [= <-]|done].
  - destruct (m !! c); [apply IH|done].
  - case_decide; [by intros [= <-]|done].
Qed.

Lemma join_answer_comm q (d1 d2 : gmap ascii pyval) :
  join (answer q d1) (answer q d2) = join (answer q d2) (answer q d1).
Proof.
  unfold answer, answer_val.
  destruct (search_trie q (PDict d1)) as [v1| |e1] eqn:H1;
    destruct (search_trie q (PDict d2)) as [v2| |e2] eqn:H2; simpl;
    try done; try (by rewrite (comm_L (∪))).
  apply search_trie_raises in H1, H2. by subst.
Qed.

Lemma answers_permutation q (tries tries' : list (gmap ascii pyval)) a :
  tries ≡ₚ tries' -> answers q tries a = answers q tries' a.
Proof.
  intros Hperm. revert a.
  induction Hperm as [|d l l' _ IH|d1 d2 l|l1 l2 l3 _ IH1 _ IH2]; intros a.
  - done.
  - apply IH.
  - cbn [answers]. by rewrite !join_assoc, join_answer_comm.
  - by rewrite IH1.
Qed.

(** X15.  The answer of a search does not depend on the order in which
    the datastores are listed. *)
Theorem search_ignores_datastore_order q σ ds :
  datastores σ ≡ₚ ds ->
  (search q (State (input_file σ) (directory σ) (handles σ) ds)).2 =
  (search q σ).2.
Proof.
  intros Hperm. rewrite !search_answers. symmetry.
  apply answers_permutation. unfold shelves. simpl.
  by apply Permutation_map.
Qed.

Lemma search_ignores_datastore_order_witness :
  let σ := (parse_and_insert
              (ParseStore_init (Some (replicate 101 "ab")) ∅)).1 in
  (search "b" (State (input_file σ) (directory σ) (handles σ)
                     ["101.db"; "100.db"])).2 = (search "b" σ).2.
Proof.
  intros σ. apply (search_ignores_datastore_order "b" σ).
  change (datastores σ) with ["100.db"; "101.db"]. apply perm_swap.
Defined.

Lemma input_file_flush c d σ : input_file (flush c d σ) = input_file σ.
Proof. done. Qed.

Lemma input_file_parse_lines fp b σ :
  input_file (parse_lines fp b σ).1.2 = input_file σ.
Proof.
  revert b σ. induction fp as [|raw fp IH]; intros b σ; [done|].
  simpl. unfold parse_line.
  destruct (decide (strip raw = EmptyString)) as [Hblank|Hline]; [apply IH|].
  destruct (flush_due (count b)).
  - destruct (insert_strings (split_space (strip raw)) (strip raw)
                (Locals (count b) ∅)) as [b2 [e|]]; simpl; [done|].
    by rewrite IH.
  - destruct (insert_strings (split_space (strip raw)) (strip raw) b)
      as [b2 [e|]]; simpl; [done|apply IH].
Qed.

Lemma input_file_parse_and_insert σ :
  input_file (parse_and_insert σ).1 = input_file σ.
Proof.
  unfold parse_and_insert. destruct (input_file σ) as [fp|] eqn:Hfp; [|done].
  pose proof (input_file_parse_lines fp (Locals 0 ∅) σ) as Hin.
  destruct (parse_lines fp (Locals 0 ∅) σ) as [[b σ1] [e|]]; simpl in *;
    congruence.
Qed.

Lemma manage_datastore_forced σ :
  manage_datastore true σ =
  parse_and_insert (State (input_file σ) ∅ (handles σ) []).
Proof.
  unfold manage_datastore. simpl. f_equal.
  unfold unlink_datastores. simpl. f_equal.
  apply map_eq. intros k. rewrite lookup_foldl_delete, lookup_empty.
  case_decide as Hk; [done|].
  apply not_elem_of_dom. intros Hdom. apply Hk.
  apply elem_of_app. right. unfold listdir. by apply elem_of_elements.
Qed.

(** X16.  A forced rebuild removes every shelve file of the directory
    before it builds, and forgets every listed datastore: it is the
    build from an empty directory with no datastore listed, whatever the
    directory held and whatever was listed. *)
Theorem forced_rebuild_starts_from_nothing σ :
  manage_datastore true σ =
  parse_and_insert (State (input_file σ) ∅ (handles σ) []).
Proof. apply manage_datastore_forced. Qed.

(** X17.  With no handle open, a forced rebuild repeated on the state
    that a forced rebuild left gives that same state and outcome
    again. *)
Theorem forced_rebuild_is_idempotent σ :
  handles σ = [] ->
  manage_datastore true (manage_datastore true σ).1 = manage_datastore true σ.
Proof.
  intros Hnil. rewrite (manage_datastore_forced (_.1)).
  rewrite manage_datastore_forced. rewrite Hnil.
  rewrite input_file_parse_and_insert. simpl.
  pose proof (handles_parse_and_insert (State (input_file σ) ∅ [] []))
    as Hclosed.
  apply Permutation_nil_r in Hclosed. by rewrite Hclosed.
Qed.

Lemma forced_rebuild_is_idempotent_witness :
  let σ := ParseStore_init (Some ["cat dog"; "car bus"]) {["7.db" := ∅]} in
  manage_datastore true (manage_datastore true σ).1 = manage_datastore true σ.
Proof.
  intros σ. by apply (forced_rebuild_is_idempotent σ).
Defined.

(** X18.  After a completed build of a file none of whose strings starts
    with the marker character, the empty query returns the empty set. *)
Theorem empty_query_returns_nothing σ fp σ' :
  input_file σ = Some fp -> directory σ = ∅ -> datastores σ = [] ->
  parse_and_insert σ = (σ', None) ->
  (forall raw t, raw ∈ fp -> strip raw <> EmptyString ->
                 t ∈ split_space (strip raw) ->
                 starts_with_marker t = false) ->
  (search EmptyString σ').2 = inl ∅.
Proof. apply empty_query_without_marker. Qed.

Lemma empty_query_returns_nothing_witness :
  let fp := ["cat dog"; "car bus"] in
  let σ := ParseStore_init (Some fp) ∅ in
  (search EmptyString (parse_and_insert σ).1).2 = inl ∅.
Proof.
  intros fp σ. apply (empty_query_returns_nothing σ fp); try done.
  intros raw t Hraw _ Ht.
  apply elem_of_cons in Hraw as [->|Hraw].
  - vm_compute in Ht.
    apply elem_of_cons in Ht as [->|Ht]; [done|].
    apply elem_of_cons in Ht as [->|Ht]; [done|]. by apply elem_of_nil in Ht.
  - apply elem_of_cons in Hraw as [->|Hraw]; [|by apply elem_of_nil in Hraw].
    vm_compute in Ht.
    apply elem_of_cons in Ht as [->|Ht]; [done|].
    apply elem_of_cons in Ht as [->|Ht]; [done|]. by apply elem_of_nil in Ht.
Defined.

End handles_and_rebuild.
